(** * sshtun: the per-connection forwarder of forward.go

    A shallow embedding of the methods [forward] and [tunneledState] of [SSHTun].

    The forwarder talks to the outside world (the dialer, the two
    connections, the tunnel-wide context, the Go scheduler).  Everything the
    outside world decides is collected in a [World] record that the model
    reads like an oracle; everything the forwarder does to the outside world
    is appended to a trace of [Event]s.  The two goroutines started with
    [errGroup.Go] are run by an interleaving of atomic steps over a shared
    store, driven by the schedule of the [World].

    The answers of the dial, of the two copies and of the closes are read
    from the [World] whatever happened before, so a statement proved for
    every [World] holds for every behaviour of the network.  A copy that
    never comes back is a schedule that stops moving its goroutine: the call
    is then [Blocked].  Calling [Close] on the nil connection panics. *)

From Stdlib Require Import String List Bool ZArith Lia.
Import ListNotations.
Open Scope string_scope.

(** ** Data model *)

(** Modelled from the spec: the declaration of [ForwardType] is not part of
    forward.go.  The spec names the two values [Local] and [Remote]; a Go
    named integer type also admits values that are neither, which forward.go
    tells apart with its [else if] chains, hence the third constructor. *)
Inductive ForwardType : Type :=
| Local
| Remote
| OtherForward (v : Z).

(** Modelled from the spec: [Endpoint] is declared outside forward.go, which
    only calls its methods [Type()] and [String()]; the spec gives it a
    transport kind and an address string. *)
Record Endpoint : Type := {
  Endpoint_Type : string;
  Endpoint_String : string
}.

(** A Go [error] is represented by its message; [nil] is [None]. *)
Definition error : Type := string.

Record TunneledConnState : Type := {
  From : string;
  Info : string;
  Error : option error;
  Ready : bool;
  Closed : bool
}.

(** The fields of [SSHTun] that forward.go reads.  The callback
    [tunneledConnState] runs code of the caller; the model keeps whether it
    is non-nil and records each call as an [EvNotify] event. *)
Record SSHTun : Type := {
  forwardType : ForwardType;
  local : Endpoint;
  remote : Endpoint;
  server : Endpoint;
  tunneledConnState : bool
}.

(** [fromConn] is the accepted connection, [toConn] the dialed one. *)
Inductive Conn : Type := FromConn | ToConn.

(** The two closures handed to [errGroup.Go], in program order. *)
Inductive Task : Type := TaskA | TaskB.

(** [tun.sshClient.Dial] and [net.Dial]. *)
Inductive Dialer : Type := SshDial | NetDial.

Inductive Event : Type :=
| EvNotify (s : TunneledConnState)
| EvDial (d : Dialer) (kind addr : string)
| EvClose (who : option Task) (c : Conn)
| EvCopy (t : Task) (dst src : option Conn)
| EvCancel (t : Task)
| EvDone (t : Task) (r : option error).

(** What the environment decides during one call. *)
Record World : Type := {
  fromAddr : string;                      (* fromConn.RemoteAddr().String() *)
  dialResult : option error;              (* the error returned by Dial *)
  copyResult : Task -> option error;      (* the error returned by io.Copy *)
  closeResult : Conn -> option error;     (* the error returned by Close *)
  tunCtxDone : bool;                      (* tun.ctx is done at the select *)
  schedule : list Task                    (* which goroutine moves next *)
}.

Inductive Status : Type := Returned | Blocked | Panicked.

Record Outcome : Type := {
  status : Status;
  events : list Event
}.

(** ** Formatting *)

(** The [%w] verb applied to the current value of an [error] variable. *)
Definition fmt_w (e : option error) : string :=
  match e with
  | Some m => m
  | None => "%!w(<nil>)"
  end.

(** The method [String] of [TunneledConnState]. *)
Definition TunneledConnState_String (s : TunneledConnState) : string :=
  let out := "[" ++ From s ++ "] " in
  let out := if String.eqb (Info s) "" then out else out ++ Info s in
  match Error s with
  | Some e => out ++ "Error: " ++ e
  | None => out
  end.

Definition connStr (tun : SSHTun) (from : string) : string :=
  from ++ " -(" ++ Endpoint_Type (local tun) ++ ")> " ++ Endpoint_String (local tun)
       ++ " -(ssh)> " ++ Endpoint_String (server tun)
       ++ " -(" ++ Endpoint_Type (remote tun) ++ ")> " ++ Endpoint_String (remote tun).

(** ** The states forward builds *)

Definition acceptedState (from kind : string) : TunneledConnState :=
  {| From := from; Info := "accepted " ++ kind ++ " connection";
     Error := None; Ready := false; Closed := false |}.

Definition dialFailedState (from : string) (e : error) : TunneledConnState :=
  {| From := from; Info := ""; Error := Some e; Ready := false; Closed := false |}.

Definition establishedState (from descr : string) : TunneledConnState :=
  {| From := from; Info := "connection established: " ++ descr;
     Error := None; Ready := true; Closed := false |}.

Definition closedWithErrorState (from : string) (e : error) : TunneledConnState :=
  {| From := from; Info := ""; Error := Some e; Ready := false; Closed := true |}.

Definition closedFinalState (from descr : string) : TunneledConnState :=
  {| From := from; Info := "connection closed: " ++ descr;
     Error := None; Ready := false; Closed := true |}.

(** The method [tunneledState]: call the observer unless it is nil. *)
Definition tunneledState (tun : SSHTun) (state : TunneledConnState)
    (tr : list Event) : list Event :=
  if tunneledConnState tun then (tr ++ [EvNotify state])%list else tr.

(** ** The two copy goroutines *)

(** Where a goroutine stands in its closure. *)
Inductive Pc : Type :=
| AtCopy                        (* _, err = io.Copy(dst, src) *)
| AtCheck                       (* if err != nil, and the forwardType tests *)
| AtWrap (label : string)       (* return fmt.Errorf(label %w, err) *)
| AtClose                       (* return dst.Close() *)
| AtCancel (r : option error)   (* deferred connCancel() *)
| AtReport (r : option error)   (* the group records r and counts the task done *)
| Finished.

(** The store the two goroutines and the coordinator share: the captured
    variable [err] (both closures assign it with [=]), the error slot of the
    group, and the per-connection context. *)
Record Pump : Type := {
  err : option error;
  pcA : Pc;
  pcB : Pc;
  groupErr : option error;
  connCtxDone : bool;
  panicked : bool;
  trace : list Event
}.

Definition pc (t : Task) (st : Pump) : Pc :=
  match t with TaskA => pcA st | TaskB => pcB st end.

Definition set_pc (t : Task) (p : Pc) (st : Pump) : Pump :=
  match t with
  | TaskA => {| err := err st; pcA := p; pcB := pcB st; groupErr := groupErr st;
                connCtxDone := connCtxDone st; panicked := panicked st;
                trace := trace st |}
  | TaskB => {| err := err st; pcA := pcA st; pcB := p; groupErr := groupErr st;
                connCtxDone := connCtxDone st; panicked := panicked st;
                trace := trace st |}
  end.

Definition set_err (e : option error) (st : Pump) : Pump :=
  {| err := e; pcA := pcA st; pcB := pcB st; groupErr := groupErr st;
     connCtxDone := connCtxDone st; panicked := panicked st; trace := trace st |}.

Definition emit (e : Event) (st : Pump) : Pump :=
  {| err := err st; pcA := pcA st; pcB := pcB st; groupErr := groupErr st;
     connCtxDone := connCtxDone st; panicked := panicked st;
     trace := trace st ++ [e] |}.

Definition cancel (st : Pump) : Pump :=
  {| err := err st; pcA := pcA st; pcB := pcB st; groupErr := groupErr st;
     connCtxDone := true; panicked := panicked st; trace := trace st |}.

Definition panic (st : Pump) : Pump :=
  {| err := err st; pcA := pcA st; pcB := pcB st; groupErr := groupErr st;
     connCtxDone := connCtxDone st; panicked := true; trace := trace st |}.

(** The group keeps the first non-nil error it is handed (errOnce). *)
Definition record_err (r : option error) (st : Pump) : Pump :=
  {| err := err st; pcA := pcA st; pcB := pcB st;
     groupErr := match groupErr st with Some e => Some e | None => r end;
     connCtxDone := connCtxDone st; panicked := panicked st; trace := trace st |}.

(** Task A runs [io.Copy(toConn, fromConn)], task B [io.Copy(fromConn, toConn)];
    each closes the destination of its copy when it does not return early. *)
Definition copyDst (toConn : option Conn) (t : Task) : option Conn :=
  match t with TaskA => toConn | TaskB => Some FromConn end.

Definition copySrc (toConn : option Conn) (t : Task) : option Conn :=
  match t with TaskA => Some FromConn | TaskB => toConn end.

(** The format string of the early return, if one is taken for this
    forward type. *)
Definition copyErrorLabel (ft : ForwardType) (t : Task) : option string :=
  match t, ft with
  | TaskA, Local => Some "failed copying bytes from remote to local: "
  | TaskA, Remote => Some "failed copying bytes from local to remote: "
  | TaskB, Local => Some "failed copying bytes from local to remote: "
  | TaskB, Remote => Some "failed copying bytes from remote to local: "
  | _, OtherForward _ => None
  end.

(** One atomic move of goroutine [t]. *)
Definition step (ft : ForwardType) (toConn : option Conn) (w : World)
    (t : Task) (st : Pump) : Pump :=
  if panicked st then st else
  match pc t st with
  | AtCopy =>
      set_pc t AtCheck
        (set_err (copyResult w t)
           (emit (EvCopy t (copyDst toConn t) (copySrc toConn t)) st))
  | AtCheck =>
      match err st, copyErrorLabel ft t with
      | Some _, Some label => set_pc t (AtWrap label) st
      | _, _ => set_pc t AtClose st
      end
  | AtWrap label =>
      set_pc t (AtCancel (Some (label ++ fmt_w (err st)))) st
  | AtClose =>
      match copyDst toConn t with
      | Some c => set_pc t (AtCancel (closeResult w c)) (emit (EvClose (Some t) c) st)
      | None => panic st
      end
  | AtCancel r =>
      set_pc t (AtReport r) (cancel (emit (EvCancel t) st))
  | AtReport r =>
      set_pc t Finished (record_err r (emit (EvDone t r) st))
  | Finished => st
  end.

Definition run_pump (ft : ForwardType) (toConn : option Conn) (w : World)
    (sched : list Task) (st : Pump) : Pump :=
  fold_left (fun s t => step ft toConn w t s) sched st.

Definition startPump (tr : list Event) : Pump :=
  {| err := None; pcA := AtCopy; pcB := AtCopy; groupErr := None;
     connCtxDone := false; panicked := false; trace := tr |}.

Definition is_finished (p : Pc) : bool :=
  match p with Finished => true | _ => false end.

(** [errGroup.Wait()] returns once both goroutines are done. *)
Definition waited (st : Pump) : bool :=
  is_finished (pcA st) && is_finished (pcB st).

(** ** forward *)

(** The first [if]/[else if]: the accepted notification. *)
Definition acceptPhase (tun : SSHTun) (from : string) : list Event :=
  match forwardType tun with
  | Local => tunneledState tun (acceptedState from (Endpoint_Type (local tun))) []
  | Remote => tunneledState tun (acceptedState from (Endpoint_Type (remote tun))) []
  | OtherForward _ => []
  end.

(** The two dial blocks.  [inl] is the early return after a failed dial,
    [inr] carries the value of [toConn] into the rest of the function. *)
Definition dialPhase (tun : SSHTun) (w : World) (from : string) (tr : list Event)
    : list Event + (option Conn * list Event) :=
  match forwardType tun with
  | Local =>
      let kind := Endpoint_Type (remote tun) in
      let addr := Endpoint_String (remote tun) in
      let tr := (tr ++ [EvDial SshDial kind addr])%list in
      match dialResult w with
      | Some e =>
          let msg := "remote dial " ++ kind ++ " to " ++ addr ++ " failed: " ++ e in
          inl (tunneledState tun (dialFailedState from msg) tr ++ [EvClose None FromConn])%list
      | None => inr (Some ToConn, tr)
      end
  | Remote =>
      let kind := Endpoint_Type (local tun) in
      let addr := Endpoint_String (local tun) in
      let tr := (tr ++ [EvDial NetDial kind addr])%list in
      match dialResult w with
      | Some e =>
          let msg := "local dial " ++ kind ++ " to " ++ addr ++ " failed: " ++ e in
          inl (tunneledState tun (dialFailedState from msg) tr ++ [EvClose None FromConn])%list
      | None => inr (Some ToConn, tr)
      end
  | OtherForward _ => inr (None, tr)
  end.

(** After [errGroup.Wait()]: the select on [tun.ctx] and the last state. *)
Definition closePhase (tun : SSHTun) (w : World) (from : string)
    (waitErr : option error) (tr : list Event) : list Event :=
  let tr :=
    if tunCtxDone w then tr
    else match waitErr with
         | Some e => tunneledState tun (closedWithErrorState from e) tr
         | None => tr
         end in
  tunneledState tun (closedFinalState from (connStr tun from)) tr.

Definition forward (tun : SSHTun) (w : World) : Outcome :=
  let from := fromAddr w in
  match dialPhase tun w from (acceptPhase tun from) with
  | inl tr => {| status := Returned; events := tr |}
  | inr (toConn, tr) =>
      let tr := tunneledState tun (establishedState from (connStr tun from)) tr in
      let p := run_pump (forwardType tun) toConn w (schedule w) (startPump tr) in
      if panicked p then {| status := Panicked; events := trace p |}
      else if negb (waited p) then {| status := Blocked; events := trace p |}
      else if negb (connCtxDone p || tunCtxDone w)
           then {| status := Blocked; events := trace p |}
      else {| status := Returned;
              events := closePhase tun w from (groupErr p) (trace p) |}
  end.

(** ** Reading a trace *)

Definition notifications (tr : list Event) : list TunneledConnState :=
  flat_map (fun e => match e with EvNotify s => [s] | _ => [] end) tr.

(** The error [errGroup.Wait()] hands back, read off the trace: the first
    non-nil result a goroutine reported. *)
Fixpoint firstError (tr : list Event) : option error :=
  match tr with
  | [] => None
  | EvDone _ (Some e) :: _ => Some e
  | _ :: tr' => firstError tr'
  end.

(** What the pump may add to a trace once [toConn] is fixed: copies with the
    operands of the closure, a close of the copy's destination by the task
    itself, cancellations and task results. *)
Definition pumpEvent (toConn : option Conn) (e : Event) : Prop :=
  match e with
  | EvCopy t dst src => dst = copyDst toConn t /\ src = copySrc toConn t
  | EvClose (Some t) c => copyDst toConn t = Some c
  | EvCancel _ => True
  | EvDone _ _ => True
  | _ => False
  end.

Definition closesOf (c : Conn) (tr : list Event) : nat :=
  length (filter (fun e => match e with
                           | EvClose _ FromConn => match c with FromConn => true | ToConn => false end
                           | EvClose _ ToConn => match c with ToConn => true | FromConn => false end
                           | _ => false
                           end) tr).

Definition closedBy (t : Task) (tr : list Event) : bool :=
  existsb (fun e => match e with
                    | EvClose (Some TaskA) _ => match t with TaskA => true | TaskB => false end
                    | EvClose (Some TaskB) _ => match t with TaskB => true | TaskA => false end
                    | _ => false
                    end) tr.

Definition doneOrder (tr : list Event) : list Task :=
  flat_map (fun e => match e with EvDone t _ => [t] | _ => [] end) tr.

Definition copyOrder (tr : list Event) : list Task :=
  flat_map (fun e => match e with EvCopy t _ _ => [t] | _ => [] end) tr.

Definition dials (tr : list Event) : list Event :=
  filter (fun e => match e with EvDial _ _ _ => true | _ => false end) tr.

(** ** The state machine summary of the spec *)



(** What one call of [tunneledState] adds to the trace. *)
Definition notify (tun : SSHTun) (s : TunneledConnState) : list Event :=
  if tunneledConnState tun then [EvNotify s] else [].

(** What the select on [tun.ctx] adds to the trace when [Wait] returned [r]. *)
Definition surfaced (tun : SSHTun) (w : World) (r : option error) : list Event :=
  if tunCtxDone w then []
  else match r with
       | Some e => notify tun (closedWithErrorState (fromAddr w) e)
       | None => []
       end.

(** ** The spec's wording, for comparison with the code *)

(** Following the spec's words, not forward.go: the side of the tunnel a
    connection is on.  Under Local forwarding the accepted connection is the
    local one and the dialed connection the remote one; Remote forwarding
    swaps them. *)
Definition sideOf (ft : ForwardType) (c : Conn) : option string :=
  match ft, c with
  | Local, FromConn => Some "local"
  | Local, ToConn => Some "remote"
  | Remote, FromConn => Some "remote"
  | Remote, ToConn => Some "local"
  | OtherForward _, _ => None
  end.

(** Following the spec's words, not forward.go: a copy error names the side
    the copy reads from, then the side it writes to. *)
Definition directionLabel (ft : ForwardType) (src dst : Conn) : option string :=
  match sideOf ft src, sideOf ft dst with
  | Some a, Some b => Some ("failed copying bytes from " ++ a ++ " to " ++ b ++ ": ")
  | _, _ => None
  end.

(** Following the spec's words, not forward.go: the shape of the connection
    descriptor, with the label of the tunnel hop left open. *)
Definition descriptorShape
    (tunnel from localKind localAddr serverAddr remoteKind remoteAddr : string)
    : string :=
  from ++ " -(" ++ localKind ++ ")> " ++ localAddr
       ++ " -(" ++ tunnel ++ ")> " ++ serverAddr
       ++ " -(" ++ remoteKind ++ ")> " ++ remoteAddr.

(** ** Invariants of the pump *)

(** What a goroutine can hand to the group: the result of closing the
    destination of its copy, or its label followed by the value [err] had
    when the error was formatted. *)
Definition taskResult (ft : ForwardType) (toConn : option Conn) (w : World)
    (t : Task) (r : option error) : Prop :=
  (exists c, copyDst toConn t = Some c /\ r = closeResult w c)
  \/ (exists label e, copyErrorLabel ft t = Some label
                      /\ r = Some (label ++ fmt_w e)).

Definition doneEvent (ft : ForwardType) (toConn : option Conn) (w : World)
    (e : Event) : Prop :=
  match e with
  | EvDone t r => taskResult ft toConn w t r
  | _ => True
  end.

(** What the program counter of goroutine [t] may carry. *)
Definition pcOk (ft : ForwardType) (toConn : option Conn) (w : World)
    (t : Task) (p : Pc) : Prop :=
  match p with
  | AtWrap label => copyErrorLabel ft t = Some label
  | AtCancel r | AtReport r => taskResult ft toConn w t r
  | _ => True
  end.

Definition pumpOk (ft : ForwardType) (toConn : option Conn) (w : World)
    (st : Pump) : Prop :=
  pcOk ft toConn w TaskA (pcA st) /\ pcOk ft toConn w TaskB (pcB st)
  /\ Forall (doneEvent ft toConn w) (trace st).



(** How many moves a goroutine still has to make. *)
Definition remaining (p : Pc) : nat :=
  match p with
  | AtCopy => 5
  | AtCheck => 4
  | AtWrap _ => 3
  | AtClose => 3
  | AtCancel _ => 2
  | AtReport _ => 1
  | Finished => 0
  end.

Definition isTask (t u : Task) : bool :=
  match t, u with
  | TaskA, TaskA | TaskB, TaskB => true
  | _, _ => false
  end.

(** How often a schedule lets goroutine [t] move. *)
Definition moves (t : Task) (sched : list Task) : nat :=
  length (filter (isTask t) sched).

(** A goroutine past its deferred [connCancel()] has cancelled [connCtx]. *)
Definition cancelSeen (st : Pump) : Prop :=
  forall u, remaining (pc u st) <= 1 -> connCtxDone st = true.

(** ** Taking a call apart *)

(** The same pump state, reached after [pre] had already been recorded. *)
Definition prepend (pre : list Event) (st : Pump) : Pump :=
  {| err := err st; pcA := pcA st; pcB := pcB st; groupErr := groupErr st;
     connCtxDone := connCtxDone st; panicked := panicked st;
     trace := pre ++ trace st |}.

(** The two goroutines of a call, with a trace of their own. *)
Definition pumpOf (ft : ForwardType) (toConn : option Conn) (w : World) : Pump :=
  run_pump ft toConn w (schedule w) (startPump []).

(** What [forward] makes of the pump once [pre] has happened: the tests
    after [errGroup.Go], [errGroup.Wait()], the wait on [connCtx], the
    select and the last state. *)
Definition settle (tun : SSHTun) (w : World) (p : Pump) (pre : list Event)
    : Outcome :=
  if panicked p then {| status := Panicked; events := pre ++ trace p |}
  else if negb (waited p) then {| status := Blocked; events := pre ++ trace p |}
  else if negb (connCtxDone p || tunCtxDone w)
       then {| status := Blocked; events := pre ++ trace p |}
  else {| status := Returned;
          events := pre ++ trace p ++ surfaced tun w (groupErr p)
                    ++ notify tun (closedFinalState (fromAddr w)
                                     (connStr tun (fromAddr w))) |}.

(** A trace without the calls of the observer. *)
Definition silent (tr : list Event) : list Event :=
  filter (fun e => match e with EvNotify _ => false | _ => true end) tr.

(** The same tunnel with a nil observer. *)
Definition withoutObserver (tun : SSHTun) : SSHTun :=
  {| forwardType := forwardType tun; local := local tun; remote := remote tun;
     server := server tun; tunneledConnState := false |}.

(** Events of the coordinator before the goroutines start. *)
Definition quiet (e : Event) : Prop :=
  match e with
  | EvNotify _ | EvDial _ _ _ => True
  | _ => False
  end.

Definition isNotification (e : Event) : Prop :=
  match e with
  | EvNotify _ => True
  | _ => False
  end.

(** How often goroutine [t] closed a connection. *)
Definition closesBy (t : Task) (tr : list Event) : nat :=
  length (filter (fun e => match e with
                           | EvClose (Some u) _ => isTask t u
                           | _ => false
                           end) tr).

(** The goroutines counted done are the finished ones, each counted once. *)
Definition doneInv (st : Pump) : Prop :=
  NoDup (doneOrder (trace st))
  /\ forall t, In t (doneOrder (trace st)) <-> pc t st = Finished.

(** A goroutine closes at most once, and not before its [Close] call. *)
Definition closeInv (st : Pump) : Prop :=
  forall t, closesBy t (trace st) <= 1
            /\ (3 <= remaining (pc t st) -> closesBy t (trace st) = 0).

(** The results goroutine [t] handed to the group. *)
Definition resultsOf (t : Task) (tr : list Event) : list (option error) :=
  flat_map (fun e => match e with
                     | EvDone u r => if isTask t u then [r] else []
                     | _ => []
                     end) tr.

(** A result [r] of goroutine [t] that closed [n] times: it closed once and
    hands on what [Close] returned, or it closed nothing and hands on a
    labelled error. *)
Definition resOk (ft : ForwardType) (toConn : option Conn) (w : World)
    (t : Task) (r : option error) (n : nat) : Prop :=
  (n = 1 /\ exists c, copyDst toConn t = Some c /\ r = closeResult w c)
  \/ (n = 0 /\ exists label e, copyErrorLabel ft t = Some label
                               /\ r = Some (label ++ fmt_w e)).

Definition resInv (ft : ForwardType) (toConn : option Conn) (w : World)
    (st : Pump) : Prop :=
  forall t,
    match pc t st with
    | AtCopy | AtCheck | AtClose =>
        closesBy t (trace st) = 0 /\ resultsOf t (trace st) = []
    | AtWrap label =>
        closesBy t (trace st) = 0 /\ resultsOf t (trace st) = []
        /\ copyErrorLabel ft t = Some label
    | AtCancel r | AtReport r =>
        resOk ft toConn w t r (closesBy t (trace st))
        /\ resultsOf t (trace st) = []
    | Finished =>
        exists r, resultsOf t (trace st) = [r]
                  /\ resOk ft toConn w t r (closesBy t (trace st))
    end.

(** While both copies end cleanly, [err] stays nil and no goroutine takes
    the error return. *)
Definition cleanInv (st : Pump) : Prop :=
  err st = None
  /\ forall t,
       match pc t st with
       | AtWrap _ => False
       | AtCancel _ | AtReport _ | Finished => closesBy t (trace st) = 1
       | _ => closesBy t (trace st) = 0
       end.

(** What the closure of goroutine [t] returns when nothing else touches
    [err] between its assignment and its uses: the labelled error of its own
    copy, or the result of its own [Close]. *)
Definition closureAlone (ft : ForwardType) (w : World) (t : Task) : option error :=
  match copyResult w t, copyErrorLabel ft t with
  | Some e, Some label => Some (label ++ e)
  | _, _ => closeResult w (match t with TaskA => ToConn | TaskB => FromConn end)
  end.

(** A world given by the four answers the pump asks for. *)
Definition tableWorld (copyA copyB closeTo closeFrom : option error) : World :=
  {| fromAddr := ""; dialResult := None;
     copyResult := fun t => match t with TaskA => copyA | TaskB => copyB end;
     closeResult := fun c => match c with ToConn => closeTo | FromConn => closeFrom end;
     tunCtxDone := false; schedule := [] |}.

Definition otherTask (t : Task) : Task :=
  match t with TaskA => TaskB | TaskB => TaskA end.

(** A state that prints as the peer in brackets and one part after it: a
    message that is not empty, or an error behind the word Error. *)
Definition onePart (from : string) (s : TunneledConnState) : Prop :=
  (Error s = None
   /\ TunneledConnState_String s = ("[" ++ from ++ "] ") ++ Info s
   /\ Info s <> "")
  \/ (exists e, Error s = Some e
                /\ TunneledConnState_String s = ("[" ++ from ++ "] ") ++ "Error: " ++ e).

(** ** Concrete tunnels and worlds *)

Definition exampleTun (ft : ForwardType) : SSHTun :=
  {| forwardType := ft;
     local := {| Endpoint_Type := "tcp"; Endpoint_String := "127.0.0.1:8080" |};
     remote := {| Endpoint_Type := "tcp"; Endpoint_String := "10.0.0.1:9999" |};
     server := {| Endpoint_Type := "tcp"; Endpoint_String := "gateway:22" |};
     tunneledConnState := true |}.

Definition exampleWorld (dial copyA copyB closeTo : option error)
    (done : bool) (sched : list Task) : World :=
  {| fromAddr := "127.0.0.1:50000";
     dialResult := dial;
     copyResult := fun t => match t with TaskA => copyA | TaskB => copyB end;
     closeResult := fun c => match c with ToConn => closeTo | FromConn => None end;
     tunCtxDone := done;
     schedule := sched |}.

(** Task A runs to its end, then task B. *)
Definition inTurn : list Task :=
  [TaskA; TaskA; TaskA; TaskA; TaskA; TaskB; TaskB; TaskB; TaskB; TaskB].

(** Task B assigns [err] between the assignment and the test of task A. *)
Definition overlapped : list Task :=
  [TaskA; TaskB; TaskA; TaskA; TaskA; TaskA; TaskB; TaskB; TaskB; TaskB].

(** The dial is refused. *)
Definition refusedWorld : World :=
  exampleWorld (Some "connection refused") None None None false [].

(** Both directions end with a clean end-of-stream. *)
Definition cleanWorld : World :=
  exampleWorld None None None None false inTurn.

(** The copy of task A fails, the copy of task B ends cleanly. *)
Definition copyAFailsWorld (sched : list Task) : World :=
  exampleWorld None (Some "connection reset by peer") None None false sched.

(** The copy of task B fails, the copy of task A ends cleanly. *)
Definition copyBFailsWorld : World :=
  exampleWorld None None (Some "connection reset by peer") None false inTurn.

(** Task A ends cleanly but closing the dialed connection fails; task B
    then hits a copy error. *)
Definition closeFailsWorld : World :=
  exampleWorld None None (Some "connection reset by peer") (Some "EOF") false inTurn.


(** Split a [Forall] over an explicit list into one goal per state. *)
Ltac each_state :=
  repeat (apply Forall_cons; [simpl; intros|]); try apply Forall_nil.

(** ** The pump only extends the trace, with events of its own *)

Section PumpFacts.

Variable ft : ForwardType.
Variable toConn : option Conn.
Variable w : World.

Lemma trace_set_pc t p st : trace (set_pc t p st) = trace st.
Proof. destruct t; reflexivity. Qed.

Lemma groupErr_set_pc t p st : groupErr (set_pc t p st) = groupErr st.
Proof. destruct t; reflexivity. Qed.

Lemma step_trace t st :
  exists l, trace (step ft toConn w t st) = (trace st ++ l)%list
            /\ Forall (pumpEvent toConn) l.
Proof.
  unfold step.
  destruct (panicked st).
  { exists []. now rewrite app_nil_r. }
  destruct (pc t st) eqn:Hpc.
  - eexists [_]. rewrite trace_set_pc. simpl. split; [reflexivity|].
    repeat constructor.
  - exists []. rewrite app_nil_r. split; [|constructor].
    destruct (err st); [destruct (copyErrorLabel ft t)|]; now rewrite trace_set_pc.
  - exists []. rewrite app_nil_r, trace_set_pc. now split.
  - destruct (copyDst toConn t) as [c|] eqn:Hc.
    + eexists [_]. rewrite trace_set_pc. simpl. split; [reflexivity|].
      repeat constructor. exact Hc.
    + exists []. rewrite app_nil_r. now split.
  - eexists [_]. rewrite trace_set_pc. simpl. split; [reflexivity|].
    repeat constructor.
  - eexists [_]. rewrite trace_set_pc. simpl. split; [reflexivity|].
    repeat constructor.
  - exists []. rewrite app_nil_r. now split.
Qed.

Lemma run_pump_cons t sched st :
  run_pump ft toConn w (t :: sched) st
  = run_pump ft toConn w sched (step ft toConn w t st).
Proof. reflexivity. Qed.

Lemma run_pump_trace sched : forall st,
  exists l, trace (run_pump ft toConn w sched st) = (trace st ++ l)%list
            /\ Forall (pumpEvent toConn) l.
Proof.
  induction sched as [|t sched IH]; intros st.
  - exists []. simpl. now rewrite app_nil_r.
  - rewrite run_pump_cons.
    destruct (IH (step ft toConn w t st)) as (l2 & E2 & F2).
    destruct (step_trace t st) as (l1 & E1 & F1).
    exists (l1 ++ l2)%list. split.
    + rewrite E2, E1. now rewrite app_assoc.
    + apply Forall_app. now split.
Qed.

(** The error slot of the group is written once: it always holds the first
    non-nil result reported so far. *)
Lemma firstError_app l1 l2 :
  firstError (l1 ++ l2) =
  match firstError l1 with Some e => Some e | None => firstError l2 end.
Proof.
  induction l1 as [|e l1 IH]; simpl; [reflexivity|].
  destruct e; try exact IH.
  destruct r; [reflexivity|exact IH].
Qed.

Lemma step_groupErr t st :
  groupErr st = firstError (trace st) ->
  groupErr (step ft toConn w t st) = firstError (trace (step ft toConn w t st)).
Proof.
  intros Inv. unfold step.
  destruct (panicked st); [exact Inv|].
  destruct (pc t st) eqn:Hpc;
    try (rewrite groupErr_set_pc, trace_set_pc; simpl;
         rewrite ?firstError_app, <- ?Inv; simpl;
         now destruct (groupErr st)).
  - destruct (err st); [destruct (copyErrorLabel ft t)|];
      now rewrite groupErr_set_pc, trace_set_pc.
  - destruct (copyDst toConn t); [|exact Inv].
    rewrite groupErr_set_pc, trace_set_pc. simpl.
    rewrite firstError_app, <- Inv. simpl. now destruct (groupErr st).
  - rewrite groupErr_set_pc, trace_set_pc. simpl.
    rewrite firstError_app, <- Inv. simpl.
    destruct (groupErr st); [reflexivity|now destruct r].
  - exact Inv.
Qed.

Lemma run_pump_groupErr sched : forall st,
  groupErr st = firstError (trace st) ->
  groupErr (run_pump ft toConn w sched st)
  = firstError (trace (run_pump ft toConn w sched st)).
Proof.
  induction sched as [|t sched IH]; intros st Inv; [exact Inv|].
  rewrite run_pump_cons. apply IH, step_groupErr, Inv.
Qed.

(** Every result in the trace is a close result or a labelled error. *)
Lemma step_pumpOk t st :
  pumpOk ft toConn w st -> pumpOk ft toConn w (step ft toConn w t st).
Proof.
  unfold pumpOk, step. intros (HA & HB & Htr).
  destruct (panicked st); [now repeat split|].
  assert (Hone : forall e, doneEvent ft toConn w e ->
                           Forall (doneEvent ft toConn w) (trace st ++ [e]))
    by (intros e He; apply Forall_app; split; [exact Htr|now repeat constructor]).
  destruct t; unfold pc.
  - destruct (pcA st) eqn:E;
      [ | destruct (err st); [destruct (copyErrorLabel ft TaskA) eqn:L|]
        | | destruct (copyDst toConn TaskA) as [c|] eqn:Hc | | | ];
      repeat split; simpl; rewrite ?E; simpl; auto;
      try (apply Hone; simpl; auto).
    + right. now exists label, (err st).
    + left. now exists c.
  - destruct (pcB st) eqn:E;
      [ | destruct (err st); [destruct (copyErrorLabel ft TaskB) eqn:L|]
        | | destruct (copyDst toConn TaskB) as [c|] eqn:Hc | | | ];
      repeat split; simpl; rewrite ?E; simpl; auto;
      try (apply Hone; simpl; auto).
    + right. now exists label, (err st).
    + left. now exists c.
Qed.

Lemma run_pump_pumpOk sched : forall st,
  pumpOk ft toConn w st -> pumpOk ft toConn w (run_pump ft toConn w sched st).
Proof.
  induction sched as [|t sched IH]; intros st H; [exact H|].
  rewrite run_pump_cons. apply IH, step_pumpOk, H.
Qed.

End PumpFacts.

(** ** The shape of a returned call *)

Lemma tunneledState_app tun s tr :
  tunneledState tun s tr = (tr ++ notify tun s)%list.
Proof.
  unfold tunneledState, notify.
  destruct (tunneledConnState tun); [reflexivity|now rewrite app_nil_r].
Qed.

Lemma closePhase_app tun w r tr :
  closePhase tun w (fromAddr w) r tr
  = (tr ++ surfaced tun w r
        ++ notify tun (closedFinalState (fromAddr w) (connStr tun (fromAddr w))))%list.
Proof.
  unfold closePhase, surfaced.
  destruct (tunCtxDone w); [|destruct r];
    rewrite ?tunneledState_app, <- ?app_assoc; reflexivity.
Qed.

Lemma firstError_notify tun s : firstError (notify tun s) = None.
Proof. unfold notify. now destruct (tunneledConnState tun). Qed.

Lemma firstError_surfaced tun w r : firstError (surfaced tun w r) = None.
Proof.
  unfold surfaced. destruct (tunCtxDone w); [reflexivity|].
  destruct r; [apply firstError_notify|reflexivity].
Qed.

Lemma notifications_app l1 l2 :
  notifications (l1 ++ l2) = (notifications l1 ++ notifications l2)%list.
Proof. apply flat_map_app. Qed.

Lemma notifications_pump toConn l :
  Forall (pumpEvent toConn) l -> notifications l = [].
Proof.
  induction 1 as [|e l He _ IH]; [reflexivity|].
  destruct e; simpl in *; try contradiction; exact IH.
Qed.

Lemma dials_pump toConn l :
  Forall (pumpEvent toConn) l -> dials l = [].
Proof.
  induction 1 as [|e l He _ IH]; [reflexivity|].
  destruct e; simpl in *; try contradiction; exact IH.
Qed.

Lemma dialPhase_no_result tun w toConn tr :
  dialPhase tun w (fromAddr w) (acceptPhase tun (fromAddr w)) = inr (toConn, tr) ->
  firstError tr = None.
Proof.
  unfold dialPhase, acceptPhase, tunneledState.
  destruct (forwardType tun), (dialResult w), (tunneledConnState tun);
    intros H; inversion H; reflexivity.
Qed.

(** A call that got past the dial and returned: the events before the pump,
    the established state, what the pump did, the optional error state and
    the final state. *)
Lemma forward_after_dial tun w toConn tr :
  dialPhase tun w (fromAddr w) (acceptPhase tun (fromAddr w)) = inr (toConn, tr) ->
  status (forward tun w) = Returned ->
  exists l,
    Forall (pumpEvent toConn) l /\
    events (forward tun w)
    = (tr ++ notify tun (establishedState (fromAddr w) (connStr tun (fromAddr w)))
          ++ l ++ surfaced tun w (firstError l)
          ++ notify tun (closedFinalState (fromAddr w) (connStr tun (fromAddr w))))%list
    /\ firstError (events (forward tun w)) = firstError l.
Proof.
  intros Hd. unfold forward. rewrite Hd.
  set (tr0 := tunneledState tun _ tr).
  destruct (run_pump_trace (forwardType tun) toConn w (schedule w) (startPump tr0))
    as (l & El & Fl).
  assert (Hg := run_pump_groupErr (forwardType tun) toConn w (schedule w)
                  (startPump tr0)).
  assert (H0 : firstError tr0 = None).
  { unfold tr0. rewrite tunneledState_app, firstError_app.
    now rewrite (dialPhase_no_result _ _ _ _ Hd), firstError_notify. }
  simpl in Hg, El. rewrite H0 in Hg. specialize (Hg eq_refl).
  destruct (panicked _); [discriminate|].
  destruct (waited _); [|discriminate]. simpl.
  destruct (connCtxDone _ || tunCtxDone w); [|discriminate]. simpl.
  intros _. exists l. split; [exact Fl|].
  rewrite closePhase_app, Hg, El, firstError_app, H0.
  unfold tr0. rewrite tunneledState_app, <- !app_assoc. split; [reflexivity|].
  rewrite !firstError_app, (dialPhase_no_result _ _ _ _ Hd), firstError_notify.
  destruct (firstError l); [reflexivity|].
  now rewrite firstError_surfaced, firstError_notify.
Qed.

Lemma doneEvent_notify ft toConn w tun s :
  Forall (doneEvent ft toConn w) (notify tun s).
Proof. unfold notify. destruct (tunneledConnState tun); repeat constructor. Qed.

Lemma doneEvent_surfaced ft toConn w tun r :
  Forall (doneEvent ft toConn w) (surfaced tun w r).
Proof.
  unfold surfaced. destruct (tunCtxDone w); [constructor|].
  destruct r; [apply doneEvent_notify|constructor].
Qed.

Lemma dialPhase_no_done tun w toConn tr :
  dialPhase tun w (fromAddr w) (acceptPhase tun (fromAddr w)) = inr (toConn, tr) ->
  Forall (doneEvent (forwardType tun) toConn w) tr.
Proof.
  unfold dialPhase, acceptPhase, tunneledState.
  destruct (forwardType tun), (dialResult w), (tunneledConnState tun);
    intros H; inversion H; repeat constructor.
Qed.

(** Whatever a goroutine reported during a call is a close result or a
    labelled error. *)
Lemma forward_done_events tun w toConn tr :
  dialPhase tun w (fromAddr w) (acceptPhase tun (fromAddr w)) = inr (toConn, tr) ->
  Forall (doneEvent (forwardType tun) toConn w) (events (forward tun w)).
Proof.
  intros Hd. unfold forward. rewrite Hd.
  set (p := run_pump _ _ _ _ _).
  assert (Hp : pumpOk (forwardType tun) toConn w p).
  { apply run_pump_pumpOk. repeat split; simpl; auto.
    rewrite tunneledState_app. apply Forall_app. split.
    - exact (dialPhase_no_done _ _ _ _ Hd).
    - apply doneEvent_notify. }
  destruct Hp as (_ & _ & Htr).
  destruct (panicked p); [exact Htr|].
  destruct (negb (waited p)); [exact Htr|].
  destruct (negb (connCtxDone p || tunCtxDone w)); [exact Htr|].
  simpl. rewrite closePhase_app.
  repeat (apply Forall_app; split); auto using doneEvent_notify, doneEvent_surfaced.
Qed.

Lemma notifications_notify tun s :
  tunneledConnState tun = true -> notifications (notify tun s) = [s].
Proof. unfold notify. now intros ->. Qed.

Lemma notifications_accept tun from :
  tunneledConnState tun = true ->
  forwardType tun = Local \/ forwardType tun = Remote ->
  exists kind, notifications (acceptPhase tun from) = [acceptedState from kind].
Proof.
  unfold acceptPhase, tunneledState. intros -> [-> | ->]; eexists; reflexivity.
Qed.

Lemma dialPhase_dialed tun w tr :
  forwardType tun = Local \/ forwardType tun = Remote ->
  dialResult w = None ->
  exists d kind addr,
    dialPhase tun w (fromAddr w) tr = inr (Some ToConn, tr ++ [EvDial d kind addr])%list.
Proof.
  unfold dialPhase. intros [-> | ->] ->; do 3 eexists; reflexivity.
Qed.

(** The states seen by the observer of a call that dialed and returned. *)
Lemma notifications_dialed tun w :
  tunneledConnState tun = true ->
  forwardType tun = Local \/ forwardType tun = Remote ->
  dialResult w = None ->
  status (forward tun w) = Returned ->
  exists kind,
    notifications (events (forward tun w))
    = (acceptedState (fromAddr w) kind
       :: establishedState (fromAddr w) (connStr tun (fromAddr w))
       :: notifications (surfaced tun w (firstError (events (forward tun w))))
       ++ [closedFinalState (fromAddr w) (connStr tun (fromAddr w))])%list.
Proof.
  intros Hobs Hft Hdial Hret.
  destruct (dialPhase_dialed tun w (acceptPhase tun (fromAddr w)) Hft Hdial)
    as (d & k & a & Hd).
  destruct (forward_after_dial _ _ _ _ Hd Hret) as (l & Fl & Ev & Hfirst).
  destruct (notifications_accept tun (fromAddr w) Hobs Hft) as (kind & Hacc).
  exists kind. rewrite Hfirst, Ev.
  rewrite !notifications_app, Hacc, (notifications_pump _ _ Fl).
  now rewrite !notifications_notify.
Qed.


(** The states seen by the observer when the dial fails. *)
Lemma forward_dial_fails tun w cause :
  dialResult w = Some cause ->
  (forwardType tun = Local ->
   forward tun w =
   {| status := Returned;
      events := notify tun (acceptedState (fromAddr w) (Endpoint_Type (local tun)))
        ++ [EvDial SshDial (Endpoint_Type (remote tun)) (Endpoint_String (remote tun))]
        ++ notify tun (dialFailedState (fromAddr w)
             ("remote dial " ++ Endpoint_Type (remote tun) ++ " to "
                ++ Endpoint_String (remote tun) ++ " failed: " ++ cause))
        ++ [EvClose None FromConn] |})
  /\
  (forwardType tun = Remote ->
   forward tun w =
   {| status := Returned;
      events := notify tun (acceptedState (fromAddr w) (Endpoint_Type (remote tun)))
        ++ [EvDial NetDial (Endpoint_Type (local tun)) (Endpoint_String (local tun))]
        ++ notify tun (dialFailedState (fromAddr w)
             ("local dial " ++ Endpoint_Type (local tun) ++ " to "
                ++ Endpoint_String (local tun) ++ " failed: " ++ cause))
        ++ [EvClose None FromConn] |}).
Proof.
  intros Hdial.
  split; intros Hft; unfold forward, dialPhase, acceptPhase;
    rewrite Hft, Hdial, !tunneledState_app; simpl;
    now rewrite <- !app_assoc.
Qed.

(** ** Fair schedules let the call return *)

(** With a dialed connection no move panics, each move of a goroutine takes
    it one step closer to its end, and leaves the other goroutine alone. *)
Lemma step_fair ft c w t st :
  panicked st = false ->
  cancelSeen st ->
  panicked (step ft (Some c) w t st) = false
  /\ remaining (pc t (step ft (Some c) w t st)) = pred (remaining (pc t st))
  /\ (forall u, isTask t u = false ->
                pc u (step ft (Some c) w t st) = pc u st)
  /\ cancelSeen (step ft (Some c) w t st).
Proof.
  unfold cancelSeen. destruct st as [e a b g d p tr]. simpl. intros -> K.
  assert (KA := K TaskA). assert (KB := K TaskB). simpl in KA, KB.
  unfold step; simpl.
  destruct t; simpl.
  - destruct a; simpl in *;
      try (destruct e; [destruct ft|]; simpl);
      repeat split; try reflexivity;
        try (intros []; simpl; intros;
             try discriminate; try reflexivity; auto; lia).
  - destruct b; simpl in *;
      try (destruct e; [destruct ft|]; simpl);
      repeat split; try reflexivity;
        try (intros []; simpl; intros;
             try discriminate; try reflexivity; auto; lia).
Qed.

Lemma run_pump_fair ft c w sched : forall st,
  panicked st = false ->
  cancelSeen st ->
  remaining (pcA st) <= moves TaskA sched ->
  remaining (pcB st) <= moves TaskB sched ->
  panicked (run_pump ft (Some c) w sched st) = false
  /\ waited (run_pump ft (Some c) w sched st) = true
  /\ connCtxDone (run_pump ft (Some c) w sched st) = true.
Proof.
  induction sched as [|t sched IH]; intros st Hp K HA HB.
  - unfold moves in *. simpl in *. split; [exact Hp|].
    assert (EA : pcA st = Finished)
      by (destruct (pcA st); simpl in HA; try lia; reflexivity).
    assert (EB : pcB st = Finished)
      by (destruct (pcB st); simpl in HB; try lia; reflexivity).
    split; [unfold waited; now rewrite EA, EB|].
    apply (K TaskA). simpl. rewrite EA. simpl. lia.
  - rewrite run_pump_cons.
    destruct (step_fair ft c w t st Hp K) as (Hp' & Hdec & Hoth & K').
    unfold moves in *.
    destruct t; simpl in Hdec, HA, HB.
    + assert (Hb := Hoth TaskB eq_refl). simpl in Hb.
      apply IH; auto; [rewrite Hdec; lia | rewrite Hb; exact HB].
    + assert (Ha := Hoth TaskA eq_refl). simpl in Ha.
      apply IH; auto; [rewrite Ha; exact HA | rewrite Hdec; lia].
Qed.

(** X10.  A call with forward type Local or Remote returns as soon as its
    schedule gives each goroutine five moves, whatever the dial, the copies
    and the closes answer. *)
Lemma forward_returns tun w :
  forwardType tun = Local \/ forwardType tun = Remote ->
  5 <= moves TaskA (schedule w) ->
  5 <= moves TaskB (schedule w) ->
  status (forward tun w) = Returned.
Proof.
  intros Hft HA HB.
  destruct (dialResult w) as [cause|] eqn:Hdial.
  - destruct (forward_dial_fails tun w cause Hdial) as [HL HR].
    destruct Hft as [Hft | Hft]; [rewrite (HL Hft) | rewrite (HR Hft)]; reflexivity.
  - destruct (dialPhase_dialed tun w (acceptPhase tun (fromAddr w)) Hft Hdial)
      as (d & k & a & Hd).
    unfold forward. rewrite Hd.
    set (tr0 := tunneledState tun _ _).
    destruct (run_pump_fair (forwardType tun) ToConn w (schedule w) (startPump tr0))
      as (Hp & Hw & Hc); simpl; auto.
    + intros u. destruct u; simpl; lia.
    + now rewrite Hp, Hw, Hc.
Qed.

(** ** The pump with a nil dialed connection *)





Lemma dials_app l1 l2 : dials (l1 ++ l2) = (dials l1 ++ dials l2)%list.
Proof. apply filter_app. Qed.

Lemma dials_notify tun s : dials (notify tun s) = [].
Proof. unfold notify. now destruct (tunneledConnState tun). Qed.


(** ** Claims *)





(** C7, as amended.  A call of [forward] that dialed and returned ends its
    notifications with the final state, which has Closed set, whether or not
    an error state came before it; a call whose dial failed emits no state
    with Closed set at all. *)
Theorem forward_closed_notification tun w :
  tunneledConnState tun = true ->
  forwardType tun = Local \/ forwardType tun = Remote ->
  status (forward tun w) = Returned ->
  (dialResult w = None ->
   exists before,
     notifications (events (forward tun w))
     = (before ++ [closedFinalState (fromAddr w) (connStr tun (fromAddr w))])%list
     /\ Closed (closedFinalState (fromAddr w) (connStr tun (fromAddr w))) = true)
  /\ (dialResult w <> None ->
      Forall (fun s => Closed s = false) (notifications (events (forward tun w)))).
Proof.
  intros Hobs Hft Hret. split.
  - intros Hdial.
    destruct (notifications_dialed tun w Hobs Hft Hdial Hret) as (kind & ->).
    eexists (_ :: _ :: _). split; reflexivity.
  - intros Hdial. destruct (dialResult w) as [cause|] eqn:E; [|contradiction].
    destruct (forward_dial_fails tun w cause E) as [HL HR].
    destruct Hft as [Hft | Hft]; [rewrite (HL Hft) | rewrite (HR Hft)];
      unfold notify; rewrite Hobs; simpl; each_state; reflexivity.
Qed.

Lemma forward_closed_notification_witness :
  exists before,
    notifications (events (forward (exampleTun Remote) cleanWorld))
    = (before ++ [closedFinalState (fromAddr cleanWorld)
                    (connStr (exampleTun Remote) (fromAddr cleanWorld))])%list
    /\ Closed (closedFinalState (fromAddr cleanWorld)
                 (connStr (exampleTun Remote) (fromAddr cleanWorld))) = true.
Proof.
  exact (proj1 (forward_closed_notification (exampleTun Remote) cleanWorld
                  eq_refl (or_intror eq_refl) eq_refl) eq_refl).
Defined.

(** C7, as stated, fails when the dial is refused: the call returns and no
    state with Closed set was emitted. *)
Lemma refused_dial_never_closed :
  status (forward (exampleTun Local) refusedWorld) = Returned
  /\ ~ exists s, In s (notifications (events (forward (exampleTun Local) refusedWorld)))
                 /\ Closed s = true.
Proof.
  split; [reflexivity|].
  intros (s & Hin & Hc). simpl in Hin.
  destruct Hin as [<- | [<- | []]]; discriminate.
Qed.

(** C8.  After a successful dial the established state carries
    "connection established: " followed by a descriptor of the shape
    from -(localKind)> localAddr -(tunnel)> serverAddr -(remoteKind)>
    remoteAddr, the tunnel hop being labelled ssh, and the final state
    carries "connection closed: " followed by the same descriptor. *)
Theorem forward_descriptor_correlates tun w :
  tunneledConnState tun = true ->
  forwardType tun = Local \/ forwardType tun = Remote ->
  dialResult w = None ->
  status (forward tun w) = Returned ->
  let descr :=
    descriptorShape "ssh" (fromAddr w)
      (Endpoint_Type (local tun)) (Endpoint_String (local tun))
      (Endpoint_String (server tun))
      (Endpoint_Type (remote tun)) (Endpoint_String (remote tun)) in
  exists accepted between,
    notifications (events (forward tun w))
    = (accepted
       :: {| From := fromAddr w; Info := "connection established: " ++ descr;
             Error := None; Ready := true; Closed := false |}
       :: between
       ++ [{| From := fromAddr w; Info := "connection closed: " ++ descr;
              Error := None; Ready := false; Closed := true |}])%list.
Proof.
  intros Hobs Hft Hdial Hret descr.
  destruct (notifications_dialed tun w Hobs Hft Hdial Hret) as (kind & ->).
  do 2 eexists. reflexivity.
Qed.

Lemma forward_descriptor_correlates_witness :
  exists accepted between,
    notifications (events (forward (exampleTun Local) cleanWorld))
    = (accepted
       :: {| From := "127.0.0.1:50000";
             Info := "connection established: 127.0.0.1:50000 -(tcp)> 127.0.0.1:8080 -(ssh)> gateway:22 -(tcp)> 10.0.0.1:9999";
             Error := None; Ready := true; Closed := false |}
       :: between
       ++ [{| From := "127.0.0.1:50000";
              Info := "connection closed: 127.0.0.1:50000 -(tcp)> 127.0.0.1:8080 -(ssh)> gateway:22 -(tcp)> 10.0.0.1:9999";
              Error := None; Ready := false; Closed := true |}])%list.
Proof.
  exact (forward_descriptor_correlates (exampleTun Local) cleanWorld
           eq_refl (or_introl eq_refl) eq_refl eq_refl).
Defined.

(** C5, as amended.  A call that dialed and returned surfaces at most one
    error: the first non-nil result a copy goroutine handed to the group.
    The error state (error set, Closed set) is emitted exactly when such a
    result exists and the tunnel-wide context is not done at the select;
    the final state is emitted in every case.  Each result of a goroutine
    is either a labelled copy error or what closing the destination of its
    copy returned. *)
Theorem forward_surfaces_first_result tun w :
  tunneledConnState tun = true ->
  forwardType tun = Local \/ forwardType tun = Remote ->
  dialResult w = None ->
  status (forward tun w) = Returned ->
  exists kind,
    notifications (events (forward tun w))
    = (acceptedState (fromAddr w) kind
       :: establishedState (fromAddr w) (connStr tun (fromAddr w))
       :: match tunCtxDone w, firstError (events (forward tun w)) with
          | false, Some e => [closedWithErrorState (fromAddr w) e]
          | _, _ => []
          end
       ++ [closedFinalState (fromAddr w) (connStr tun (fromAddr w))])%list
    /\ (forall t r, In (EvDone t r) (events (forward tun w)) ->
                    taskResult (forwardType tun) (Some ToConn) w t r).
Proof.
  intros Hobs Hft Hdial Hret.
  destruct (notifications_dialed tun w Hobs Hft Hdial Hret) as (kind & ->).
  exists kind. split.
  - unfold surfaced, notify. rewrite Hobs.
    destruct (tunCtxDone w); [reflexivity|].
    now destruct (firstError (events (forward tun w))).
  - destruct (dialPhase_dialed tun w (acceptPhase tun (fromAddr w)) Hft Hdial)
      as (d & k & a & Hd).
    intros t r Hin.
    exact (proj1 (Forall_forall _ _) (forward_done_events _ _ _ _ Hd) _ Hin).
Qed.

Lemma forward_surfaces_first_result_witness :
  exists kind,
    notifications (events (forward (exampleTun Local) closeFailsWorld))
    = (acceptedState (fromAddr closeFailsWorld) kind
       :: establishedState (fromAddr closeFailsWorld)
            (connStr (exampleTun Local) (fromAddr closeFailsWorld))
       :: match tunCtxDone closeFailsWorld,
                firstError (events (forward (exampleTun Local) closeFailsWorld)) with
          | false, Some e => [closedWithErrorState (fromAddr closeFailsWorld) e]
          | _, _ => []
          end
       ++ [closedFinalState (fromAddr closeFailsWorld)
             (connStr (exampleTun Local) (fromAddr closeFailsWorld))])%list
    /\ (forall t r,
          In (EvDone t r) (events (forward (exampleTun Local) closeFailsWorld)) ->
          taskResult Local (Some ToConn) closeFailsWorld t r).
Proof.
  exact (forward_surfaces_first_result (exampleTun Local) closeFailsWorld
           eq_refl (or_introl eq_refl) eq_refl eq_refl).
Defined.

(** C5, as stated, fails when closing the dialed connection fails after a
    clean copy: the tunnel-wide context is not done and task B hit a copy
    error, yet the only error the observer sees is the close error of
    task A; the copy error is never surfaced. *)
Lemma forward_close_error_hides_copy_error :
  copyResult closeFailsWorld TaskB = Some "connection reset by peer"
  /\ tunCtxDone closeFailsWorld = false
  /\ status (forward (exampleTun Local) closeFailsWorld) = Returned
  /\ In (EvDone TaskB
           (Some "failed copying bytes from local to remote: connection reset by peer"))
        (events (forward (exampleTun Local) closeFailsWorld))
  /\ map Error (notifications (events (forward (exampleTun Local) closeFailsWorld)))
     = [None; None; Some "EOF"; None].
Proof.
  repeat split; try reflexivity.
  vm_compute. tauto.
Qed.



(** C2, at a failing input.  Local forwarding, the copy of task A fails:
    task A takes the early return, reports its error to the group and is
    done without having closed any connection; the dialed connection, which
    task B reads from, is closed by nobody.  Task B, whose copy ended
    cleanly, does close the accepted connection before it is done. *)
Theorem copy_error_skips_close :
  let tr := events (forward (exampleTun Local) (copyAFailsWorld inTurn)) in
  status (forward (exampleTun Local) (copyAFailsWorld inTurn)) = Returned
  /\ In (EvDone TaskA
           (Some "failed copying bytes from remote to local: connection reset by peer"))
        tr
  /\ closedBy TaskA tr = false
  /\ closedBy TaskB tr = true
  /\ doneOrder tr = [TaskA; TaskB].
Proof.
  repeat split; try reflexivity.
  vm_compute. tauto.
Qed.

(** C3, at a failing input.  Local forwarding, the copy of task A fails and
    the copy of task B ends cleanly: the call returns with both goroutines
    done, the accepted connection closed once and the dialed connection
    never closed.  When both copies end cleanly each connection is closed
    once. *)
Theorem copy_error_leaves_dialed_open :
  let tr := events (forward (exampleTun Local) (copyAFailsWorld inTurn)) in
  let clean := events (forward (exampleTun Local) cleanWorld) in
  status (forward (exampleTun Local) (copyAFailsWorld inTurn)) = Returned
  /\ doneOrder tr = [TaskA; TaskB]
  /\ closesOf FromConn tr = 1
  /\ closesOf ToConn tr = 0
  /\ closesOf FromConn clean = 1
  /\ closesOf ToConn clean = 1.
Proof. repeat split; reflexivity. Qed.

(** C6, at a failing input.  Local forwarding, the copy of task B fails.
    That copy reads from the dialed (remote) connection and writes to the
    accepted (local) one, so the spec's label is "remote to local"; the
    error forward surfaces says "local to remote".  The two labels of
    forward.go are the spec's labels swapped, under Local and under Remote
    forwarding alike. *)
Theorem copy_error_label_swapped :
  let tr := events (forward (exampleTun Local) copyBFailsWorld) in
  status (forward (exampleTun Local) copyBFailsWorld) = Returned
  /\ In (EvCopy TaskB (Some FromConn) (Some ToConn)) tr
  /\ directionLabel Local ToConn FromConn
     = Some "failed copying bytes from remote to local: "
  /\ map Error (notifications tr)
     = [None; None;
        Some "failed copying bytes from local to remote: connection reset by peer";
        None]
  /\ (forall ft, ft = Local \/ ft = Remote ->
        copyErrorLabel ft TaskA = directionLabel ft ToConn FromConn
        /\ copyErrorLabel ft TaskB = directionLabel ft FromConn ToConn).
Proof.
  repeat split; try reflexivity.
  - vm_compute. tauto.
  - destruct H as [-> | ->]; reflexivity.
  - destruct H as [-> | ->]; reflexivity.
Qed.

(** C9, at a failing input.  Both closures assign the captured variable
    [err] of the enclosing function, so it is shared state beside the error
    slot of the group and the context.  With the same results of both
    copies, the copies finishing in the same order and the goroutines done
    in the same order, the surfaced error depends on when task B assigns
    [err]: after task A has read it, the error of task A is surfaced;
    between the assignment of task A and its test, task A sees nil, closes
    the dialed connection instead, and no error is surfaced. *)
Theorem shared_err_race :
  let seq := events (forward (exampleTun Local) (copyAFailsWorld inTurn)) in
  let race := events (forward (exampleTun Local) (copyAFailsWorld overlapped)) in
  status (forward (exampleTun Local) (copyAFailsWorld inTurn)) = Returned
  /\ status (forward (exampleTun Local) (copyAFailsWorld overlapped)) = Returned
  /\ copyOrder seq = [TaskA; TaskB] /\ copyOrder race = [TaskA; TaskB]
  /\ doneOrder seq = [TaskA; TaskB] /\ doneOrder race = [TaskA; TaskB]
  /\ map Error (notifications seq)
     = [None; None;
        Some "failed copying bytes from remote to local: connection reset by peer";
        None]
  /\ map Error (notifications race) = [None; None; None].
Proof. repeat split; reflexivity. Qed.

(** ** The pump does not look at what came before it *)

Lemma step_prepend ft toConn w pre t st :
  step ft toConn w t (prepend pre st) = prepend pre (step ft toConn w t st).
Proof.
  destruct st as [e a b g d p tr]. unfold step, prepend. simpl.
  destruct p; [reflexivity|].
  destruct t; simpl.
  - destruct a; simpl; rewrite <- ?app_assoc; try reflexivity.
    + destruct e; [destruct ft|]; reflexivity.
    + destruct toConn; simpl; rewrite <- ?app_assoc; reflexivity.
  - destruct b; simpl; rewrite <- ?app_assoc; try reflexivity.
    destruct e; [destruct ft|]; reflexivity.
Qed.

Lemma run_pump_prepend ft toConn w pre sched : forall st,
  run_pump ft toConn w sched (prepend pre st)
  = prepend pre (run_pump ft toConn w sched st).
Proof.
  induction sched as [|t sched IH]; intros st; [reflexivity|].
  rewrite !run_pump_cons, step_prepend. apply IH.
Qed.

Lemma run_pump_start ft toConn w pre :
  run_pump ft toConn w (schedule w) (startPump pre)
  = prepend pre (pumpOf ft toConn w).
Proof.
  unfold pumpOf. rewrite <- run_pump_prepend.
  unfold prepend, startPump. simpl. now rewrite app_nil_r.
Qed.

(** [forward] past the dial is the pump, settled. *)
Lemma forward_settle tun w toConn tr :
  dialPhase tun w (fromAddr w) (acceptPhase tun (fromAddr w)) = inr (toConn, tr) ->
  forward tun w
  = settle tun w (pumpOf (forwardType tun) toConn w)
      (tr ++ notify tun (establishedState (fromAddr w) (connStr tun (fromAddr w)))).
Proof.
  intros Hd. unfold forward, settle. rewrite Hd.
  rewrite tunneledState_app, run_pump_start. simpl.
  destruct (panicked _); [reflexivity|].
  destruct (negb (waited _)); [reflexivity|].
  destruct (negb (_ || _)); [reflexivity|].
  rewrite closePhase_app. f_equal. now rewrite <- !app_assoc.
Qed.

(** Without a failed dial the dial phase hands over a quiet trace. *)
Lemma dialPhase_handover tun w :
  dialResult w = None \/ (exists v, forwardType tun = OtherForward v) ->
  exists toConn tr,
    dialPhase tun w (fromAddr w) (acceptPhase tun (fromAddr w)) = inr (toConn, tr)
    /\ Forall quiet tr
    /\ (toConn = None \/ toConn = Some ToConn).
Proof.
  unfold dialPhase, acceptPhase, tunneledState.
  intros [H | [v H]]; rewrite H.
  - destruct (forwardType tun), (tunneledConnState tun);
      do 2 eexists; (split; [reflexivity|split; [repeat constructor|auto]]).
  - do 2 eexists; (split; [reflexivity|split; [constructor|auto]]).
Qed.

(** ** What the goroutines keep true, whatever the schedule *)

Lemma doneOrder_snoc tr e :
  doneOrder (tr ++ [e])
  = (doneOrder tr ++ match e with EvDone t _ => [t] | _ => [] end)%list.
Proof. unfold doneOrder. rewrite flat_map_app. simpl. now rewrite app_nil_r. Qed.

Lemma closesBy_snoc t tr e :
  closesBy t (tr ++ [e])
  = closesBy t tr + match e with
                    | EvClose (Some u) _ => if isTask t u then 1 else 0
                    | _ => 0
                    end.
Proof.
  unfold closesBy. rewrite filter_app, length_app. f_equal.
  destruct e; try reflexivity.
  destruct who as [u|]; [|reflexivity].
  simpl. now destruct (isTask t u).
Qed.

Lemma NoDup_snoc (x : Task) l : NoDup l -> ~ In x l -> NoDup (l ++ [x]).
Proof.
  intros ND Hx. apply NoDup_app; [exact ND|constructor; [intros []|constructor]|].
  intros y Hy [<- | []]. exact (Hx Hy).
Qed.

Section PumpInvariants.

Variable ft : ForwardType.
Variable toConn : option Conn.
Variable w : World.

Lemma step_cancelSeen t st :
  cancelSeen st -> cancelSeen (step ft toConn w t st).
Proof.
  unfold cancelSeen. destruct st as [e a b g d p tr]. simpl. intros K.
  assert (KA := K TaskA). assert (KB := K TaskB). simpl in KA, KB.
  unfold step; simpl. destruct p; [exact K|].
  destruct t; simpl.
  - destruct a; simpl in *;
      try (destruct e; [destruct ft|]; simpl);
      try (destruct toConn; simpl);
      intros []; simpl; intros; auto; lia.
  - destruct b; simpl in *;
      try (destruct e; [destruct ft|]; simpl);
      intros []; simpl; intros; auto; lia.
Qed.

Lemma step_doneInv t st : doneInv st -> doneInv (step ft toConn w t st).
Proof.
  unfold doneInv. destruct st as [e a b g d p tr]. simpl. intros [ND H].
  assert (HA := H TaskA). assert (HB := H TaskB). simpl in HA, HB.
  unfold step; simpl. destruct p; [now split|].
  destruct t; simpl.
  - destruct a; simpl in *;
      try (destruct e; [destruct ft|]; simpl);
      try (destruct toConn; simpl);
      rewrite ?doneOrder_snoc; simpl; rewrite ?app_nil_r;
      (split;
       [first [exact ND
              | apply NoDup_snoc; [exact ND|intros X; apply HA in X; discriminate]]
       | intros []; simpl; rewrite ?in_app_iff; simpl;
         intuition (try discriminate; try congruence)]).
  - destruct b; simpl in *;
      try (destruct e; [destruct ft|]; simpl);
      rewrite ?doneOrder_snoc; simpl; rewrite ?app_nil_r;
      (split;
       [first [exact ND
              | apply NoDup_snoc; [exact ND|intros X; apply HB in X; discriminate]]
       | intros []; simpl; rewrite ?in_app_iff; simpl;
         intuition (try discriminate; try congruence)]).
Qed.

Lemma step_closeInv t st : closeInv st -> closeInv (step ft toConn w t st).
Proof.
  unfold closeInv. destruct st as [e a b g d p tr]. simpl. intros H.
  assert (HA := H TaskA). assert (HB := H TaskB). simpl in HA, HB.
  unfold step; simpl. destruct p; [exact H|].
  destruct t; simpl.
  - destruct a; simpl in *;
      try (destruct e; [destruct ft|]; simpl);
      try (destruct toConn; simpl);
      intros []; simpl; rewrite ?closesBy_snoc; simpl; lia.
  - destruct b; simpl in *;
      try (destruct e; [destruct ft|]; simpl);
      intros []; simpl; rewrite ?closesBy_snoc; simpl; lia.
Qed.

Lemma pumpOf_invariants :
  cancelSeen (pumpOf ft toConn w)
  /\ doneInv (pumpOf ft toConn w)
  /\ closeInv (pumpOf ft toConn w).
Proof.
  unfold pumpOf.
  assert (H0 : cancelSeen (startPump []) /\ doneInv (startPump [])
               /\ closeInv (startPump [])).
  { split; [|split].
    - intros []; simpl; lia.
    - split; [constructor|].
      intros []; simpl; (split; [intros []|discriminate]).
    - intros []; unfold closesBy; simpl; lia. }
  revert H0. generalize (startPump []).
  induction (schedule w) as [|t sched IH]; intros st H; [exact H|].
  rewrite run_pump_cons. apply IH.
  destruct H as (H1 & H2 & H3).
  auto using step_cancelSeen, step_doneInv, step_closeInv.
Qed.

Lemma pumpOf_events : Forall (pumpEvent toConn) (trace (pumpOf ft toConn w)).
Proof.
  unfold pumpOf.
  destruct (run_pump_trace ft toConn w (schedule w) (startPump []))
    as (l & -> & Fl).
  exact Fl.
Qed.

End PumpInvariants.

(** ** The parts of a trace *)

Lemma silent_app l1 l2 : silent (l1 ++ l2) = (silent l1 ++ silent l2)%list.
Proof. apply filter_app. Qed.

Lemma silent_notify tun s : silent (notify tun s) = [].
Proof. unfold notify. now destruct (tunneledConnState tun). Qed.

Lemma silent_surfaced tun w r : silent (surfaced tun w r) = [].
Proof.
  unfold surfaced. destruct (tunCtxDone w); [reflexivity|].
  destruct r; [apply silent_notify|reflexivity].
Qed.

Lemma silent_pump toConn l : Forall (pumpEvent toConn) l -> silent l = l.
Proof.
  induction 1 as [|e l He _ IH]; [reflexivity|].
  destruct e; simpl in *; try contradiction; now rewrite IH.
Qed.

Lemma notifications_silent l : notifications (silent l) = [].
Proof.
  induction l as [|e l IH]; [reflexivity|]. destruct e; simpl; exact IH.
Qed.

Lemma surfaced_withoutObserver tun w r : surfaced (withoutObserver tun) w r = [].
Proof. unfold surfaced. destruct (tunCtxDone w); [|destruct r]; reflexivity. Qed.

Lemma dialPhase_withoutObserver tun w :
  dialPhase (withoutObserver tun) w (fromAddr w)
    (acceptPhase (withoutObserver tun) (fromAddr w))
  = match dialPhase tun w (fromAddr w) (acceptPhase tun (fromAddr w)) with
    | inl tr => inl (silent tr)
    | inr (toConn, tr) => inr (toConn, silent tr)
    end.
Proof.
  unfold dialPhase, acceptPhase, tunneledState, withoutObserver. simpl.
  destruct (forwardType tun), (dialResult w), (tunneledConnState tun); reflexivity.
Qed.

(** A call past the dial, phase by phase. *)
Lemma forward_phases_of tun w toConn tr :
  dialPhase tun w (fromAddr w) (acceptPhase tun (fromAddr w)) = inr (toConn, tr) ->
  exists tail,
    events (forward tun w)
    = ((tr ++ notify tun (establishedState (fromAddr w) (connStr tun (fromAddr w))))
       ++ trace (pumpOf (forwardType tun) toConn w) ++ tail)%list
    /\ Forall isNotification tail
    /\ (status (forward tun w) <> Returned -> tail = []).
Proof.
  intros Hd. rewrite (forward_settle _ _ _ _ Hd). unfold settle.
  destruct (panicked _);
    [exists []; rewrite app_nil_r; repeat split; constructor|].
  destruct (negb (waited _));
    [exists []; rewrite app_nil_r; repeat split; constructor|].
  destruct (negb (_ || _));
    [exists []; rewrite app_nil_r; repeat split; constructor|].
  eexists. split; [reflexivity|]. split; [|intros H; now elim H].
  apply Forall_app. split.
  - unfold surfaced, notify.
    destruct (tunCtxDone w); [constructor|].
    destruct (groupErr _); [|constructor].
    destruct (tunneledConnState tun); repeat constructor.
  - unfold notify. destruct (tunneledConnState tun); repeat constructor.
Qed.

Lemma quiet_notify tun s : Forall quiet (notify tun s).
Proof. unfold notify. destruct (tunneledConnState tun); repeat constructor. Qed.

(** ** Further properties of forward *)

(** X1.  The observer only listens.  With a nil observer a call ends the
    same way and does the same things, minus the notifications: its events
    are those of the call with the observer, with the notifications left
    out, and it notifies nobody. *)
Theorem observer_only_listens tun w :
  status (forward (withoutObserver tun) w) = status (forward tun w)
  /\ events (forward (withoutObserver tun) w) = silent (events (forward tun w))
  /\ notifications (events (forward (withoutObserver tun) w)) = [].
Proof.
  assert (H : status (forward (withoutObserver tun) w) = status (forward tun w)
              /\ events (forward (withoutObserver tun) w)
                 = silent (events (forward tun w))).
  { assert (Hd' := dialPhase_withoutObserver tun w).
    destruct (dialPhase tun w (fromAddr w) (acceptPhase tun (fromAddr w)))
      as [tr | [toConn tr]] eqn:Hd.
    - unfold forward. rewrite Hd, Hd'. now split.
    - rewrite (forward_settle _ _ _ _ Hd), (forward_settle _ _ _ _ Hd').
      change (forwardType (withoutObserver tun)) with (forwardType tun).
      assert (Hl := silent_pump _ _ (pumpOf_events (forwardType tun) toConn w)).
      unfold settle.
      destruct (panicked _);
        [simpl; rewrite !silent_app, silent_notify, Hl, !app_nil_r; now split|].
      destruct (negb (waited _));
        [simpl; rewrite !silent_app, silent_notify, Hl, !app_nil_r; now split|].
      destruct (negb (_ || _));
        [simpl; rewrite !silent_app, silent_notify, Hl, !app_nil_r; now split|].
      simpl. rewrite surfaced_withoutObserver.
      rewrite !silent_app, !silent_notify, silent_surfaced, Hl.
      rewrite !app_nil_r. now split. }
  destruct H as [H1 H2]. repeat split; auto.
  rewrite H2. apply notifications_silent.
Qed.

Lemma dials_tail l : Forall isNotification l -> dials l = [].
Proof.
  induction 1 as [|e l He _ IH]; [reflexivity|].
  destruct e; simpl in *; try contradiction; exact IH.
Qed.

Lemma dialPhase_dials tun w :
  match dialPhase tun w (fromAddr w) (acceptPhase tun (fromAddr w)) with
  | inl tr | inr (_, tr) =>
      dials tr
      = match forwardType tun with
        | Local => [EvDial SshDial (Endpoint_Type (remote tun))
                      (Endpoint_String (remote tun))]
        | Remote => [EvDial NetDial (Endpoint_Type (local tun))
                       (Endpoint_String (local tun))]
        | OtherForward _ => []
        end
  end.
Proof.
  unfold dialPhase, acceptPhase, tunneledState.
  destruct (forwardType tun), (dialResult w), (tunneledConnState tun); reflexivity.
Qed.

(** X2.  One call dials once: through the ssh client to the remote endpoint
    under Local forwarding, with the plain dialer to the local endpoint
    under Remote forwarding, and not at all for any other forward type;
    whatever the dial and the copies answer, there is no second dial. *)
Theorem forward_dials_once tun w :
  dials (events (forward tun w))
  = match forwardType tun with
    | Local => [EvDial SshDial (Endpoint_Type (remote tun))
                  (Endpoint_String (remote tun))]
    | Remote => [EvDial NetDial (Endpoint_Type (local tun))
                   (Endpoint_String (local tun))]
    | OtherForward _ => []
    end.
Proof.
  assert (Hd := dialPhase_dials tun w).
  destruct (dialPhase tun w (fromAddr w) (acceptPhase tun (fromAddr w)))
    as [tr | [toConn tr]] eqn:E.
  - unfold forward. rewrite E. exact Hd.
  - destruct (forward_phases_of _ _ _ _ E) as (tail & -> & Ft & _).
    rewrite !dials_app, dials_notify, Hd, (dials_tail _ Ft).
    rewrite (dials_pump _ _ (pumpOf_events (forwardType tun) toConn w)).
    now rewrite !app_nil_r.
Qed.

Lemma step_no_panic ft c w t st :
  panicked st = false -> panicked (step ft (Some c) w t st) = false.
Proof.
  destruct st as [e a b g d p tr]. unfold step. simpl. intros ->.
  destruct t; simpl.
  - destruct a; simpl; try reflexivity. destruct e; [destruct ft|]; reflexivity.
  - destruct b; simpl; try reflexivity. destruct e; [destruct ft|]; reflexivity.
Qed.

Lemma run_pump_no_panic ft c w sched : forall st,
  panicked st = false -> panicked (run_pump ft (Some c) w sched st) = false.
Proof.
  induction sched as [|t sched IH]; intros st H; [exact H|].
  rewrite run_pump_cons. apply IH, step_no_panic, H.
Qed.

(** X3.  With forward type Local or Remote a call never panics: the
    goroutines only ever close a connection that was dialed. *)
Theorem forward_never_panics tun w :
  forwardType tun = Local \/ forwardType tun = Remote ->
  status (forward tun w) <> Panicked.
Proof.
  intros Hft.
  destruct (dialResult w) as [cause|] eqn:Hdial.
  - destruct (forward_dial_fails tun w cause Hdial) as [HL HR].
    destruct Hft as [Hft | Hft]; [rewrite (HL Hft) | rewrite (HR Hft)]; discriminate.
  - destruct (dialPhase_dialed tun w (acceptPhase tun (fromAddr w)) Hft Hdial)
      as (d & k & a & Hd).
    rewrite (forward_settle _ _ _ _ Hd). unfold settle, pumpOf.
    rewrite run_pump_no_panic by reflexivity.
    destruct (negb (waited _)); [discriminate|].
    destruct (negb (_ || _)); discriminate.
Qed.

Lemma forward_never_panics_witness :
  status (forward (exampleTun Remote) closeFailsWorld) <> Panicked.
Proof.
  exact (forward_never_panics (exampleTun Remote) closeFailsWorld
           (or_intror eq_refl)).
Defined.

Lemma doneOrder_app l1 l2 :
  doneOrder (l1 ++ l2) = (doneOrder l1 ++ doneOrder l2)%list.
Proof. apply flat_map_app. Qed.

Lemma doneOrder_quiet l : Forall quiet l -> doneOrder l = [].
Proof.
  induction 1 as [|e l He _ IH]; [reflexivity|].
  destruct e; simpl in *; try contradiction; exact IH.
Qed.

Lemma doneOrder_tail l : Forall isNotification l -> doneOrder l = [].
Proof.
  induction 1 as [|e l He _ IH]; [reflexivity|].
  destruct e; simpl in *; try contradiction; exact IH.
Qed.

Lemma dialPhase_quiet tun w toConn tr :
  dialPhase tun w (fromAddr w) (acceptPhase tun (fromAddr w)) = inr (toConn, tr) ->
  Forall quiet tr /\ (toConn = None \/ toConn = Some ToConn).
Proof.
  unfold dialPhase, acceptPhase, tunneledState.
  destruct (forwardType tun), (dialResult w), (tunneledConnState tun);
    intros H; inversion H; (split; [repeat constructor|auto]).
Qed.

(** The goroutines a call counted done are those of its pump. *)
Lemma forward_doneOrder tun w toConn tr :
  dialPhase tun w (fromAddr w) (acceptPhase tun (fromAddr w)) = inr (toConn, tr) ->
  doneOrder (events (forward tun w))
  = doneOrder (trace (pumpOf (forwardType tun) toConn w)).
Proof.
  intros Hd.
  destruct (forward_phases_of _ _ _ _ Hd) as (tail & -> & Ft & _).
  destruct (dialPhase_quiet _ _ _ _ Hd) as [Hq _].
  rewrite !doneOrder_app, (doneOrder_quiet _ Hq), (doneOrder_tail _ Ft).
  rewrite (doneOrder_quiet _ (quiet_notify _ _)).
  simpl. apply app_nil_r.
Qed.

(** X4.  A call is blocked only while a goroutine is still running: once
    both goroutines are counted done, each has cancelled the connection
    context, so the wait on it after [errGroup.Wait()] lets the call go
    on. *)
Theorem forward_blocked_waits_for_goroutine tun w :
  status (forward tun w) = Blocked ->
  ~ (In TaskA (doneOrder (events (forward tun w)))
     /\ In TaskB (doneOrder (events (forward tun w)))).
Proof.
  destruct (dialPhase tun w (fromAddr w) (acceptPhase tun (fromAddr w)))
    as [tr | [toConn tr]] eqn:Hd.
  - unfold forward. rewrite Hd. discriminate.
  - rewrite (forward_doneOrder _ _ _ _ Hd), (forward_settle _ _ _ _ Hd).
    destruct (pumpOf_invariants (forwardType tun) toConn w)
      as (Hc & (_ & Hdone) & _).
    intros Hst [HA HB].
    apply Hdone in HA. apply Hdone in HB. simpl in HA, HB.
    assert (Hctx := Hc TaskA). simpl in Hctx. rewrite HA in Hctx.
    revert Hst. unfold settle, waited.
    destruct (panicked _); [discriminate|].
    rewrite HA, HB, Hctx by (simpl; lia). discriminate.
Qed.

Lemma forward_blocked_waits_for_goroutine_witness :
  ~ (In TaskA (doneOrder (events (forward (exampleTun Local)
                                    (copyAFailsWorld [TaskA; TaskB; TaskA]))))
     /\ In TaskB (doneOrder (events (forward (exampleTun Local)
                                       (copyAFailsWorld [TaskA; TaskB; TaskA]))))).
Proof.
  exact (forward_blocked_waits_for_goroutine (exampleTun Local)
           (copyAFailsWorld [TaskA; TaskB; TaskA]) eq_refl).
Defined.

Lemma two_tasks (l : list Task) :
  NoDup l -> In TaskA l -> In TaskB l ->
  l = [TaskA; TaskB] \/ l = [TaskB; TaskA].
Proof.
  intros ND HA HB.
  destruct l as [|x [|y [|z l]]]; simpl in *.
  - contradiction.
  - destruct x; intuition discriminate.
  - destruct x, y; inversion ND as [|? ? N1 _]; simpl in *;
      intuition (try discriminate).
  - inversion ND as [|? ? N1 ND1]. inversion ND1 as [|? ? N2 _]. subst.
    destruct x, y, z; simpl in *; tauto.
Qed.

(** X5.  When a call that dialed returns, each of the two goroutines has
    been counted done exactly once. *)
Theorem forward_returns_after_both_done tun w :
  dialResult w = None ->
  status (forward tun w) = Returned ->
  doneOrder (events (forward tun w)) = [TaskA; TaskB]
  \/ doneOrder (events (forward tun w)) = [TaskB; TaskA].
Proof.
  intros Hdial Hst.
  destruct (dialPhase_handover tun w (or_introl Hdial)) as (toConn & tr & Hd & _).
  rewrite (forward_doneOrder _ _ _ _ Hd).
  destruct (pumpOf_invariants (forwardType tun) toConn w)
    as (_ & (ND & Hdone) & _).
  rewrite (forward_settle _ _ _ _ Hd) in Hst. unfold settle, waited in Hst.
  destruct (panicked _); [discriminate|].
  destruct (is_finished (pcA _)) eqn:EA; [|discriminate].
  destruct (is_finished (pcB _)) eqn:EB; [|discriminate].
  apply two_tasks; [exact ND| |]; apply Hdone; simpl.
  - destruct (pcA _); try discriminate EA; reflexivity.
  - destruct (pcB _); try discriminate EB; reflexivity.
Qed.

Lemma forward_returns_after_both_done_witness :
  doneOrder (events (forward (exampleTun Local) (copyAFailsWorld overlapped)))
  = [TaskA; TaskB]
  \/ doneOrder (events (forward (exampleTun Local) (copyAFailsWorld overlapped)))
     = [TaskB; TaskA].
Proof.
  exact (forward_returns_after_both_done (exampleTun Local)
           (copyAFailsWorld overlapped) eq_refl eq_refl).
Defined.

Lemma closesOf_app c l1 l2 :
  closesOf c (l1 ++ l2) = closesOf c l1 + closesOf c l2.
Proof. unfold closesOf. now rewrite filter_app, length_app. Qed.

Lemma closesOf_quiet c l : Forall quiet l -> closesOf c l = 0.
Proof.
  induction 1 as [|e l He _ IH]; [reflexivity|].
  destruct e; simpl in *; try contradiction; exact IH.
Qed.

Lemma closesOf_tail c l : Forall isNotification l -> closesOf c l = 0.
Proof.
  induction 1 as [|e l He _ IH]; [reflexivity|].
  destruct e; simpl in *; try contradiction; exact IH.
Qed.

(** In the pump task A closes only the dialed connection and task B only
    the accepted one. *)
Lemma closesOf_pump toConn l :
  Forall (pumpEvent toConn) l ->
  toConn = None \/ toConn = Some ToConn ->
  closesOf ToConn l = closesBy TaskA l /\ closesOf FromConn l = closesBy TaskB l.
Proof.
  intros F Hc. induction F as [|e l He _ IH]; [now split|].
  destruct IH as [IHA IHB].
  destruct e; simpl in He; try contradiction;
    try (split; [exact IHA|exact IHB]).
  destruct who as [t|]; [|contradiction].
  unfold closesOf, closesBy in *.
  destruct t; simpl in He.
  - destruct Hc as [-> | ->]; [discriminate|].
    inversion He; subst. simpl. split; [now f_equal|exact IHB].
  - inversion He; subst. simpl. split; [exact IHA|now f_equal].
Qed.

Lemma dialPhase_failed_closes tun w tr :
  dialPhase tun w (fromAddr w) (acceptPhase tun (fromAddr w)) = inl tr ->
  closesOf FromConn tr = 1 /\ closesOf ToConn tr = 0.
Proof.
  unfold dialPhase, acceptPhase, tunneledState.
  destruct (forwardType tun), (dialResult w), (tunneledConnState tun);
    intros H; inversion H; split; reflexivity.
Qed.

(** The closes of a call past the dial are those of its goroutines. *)
Lemma forward_closes tun w toConn tr :
  dialPhase tun w (fromAddr w) (acceptPhase tun (fromAddr w)) = inr (toConn, tr) ->
  closesOf ToConn (events (forward tun w))
  = closesBy TaskA (trace (pumpOf (forwardType tun) toConn w))
  /\ closesOf FromConn (events (forward tun w))
     = closesBy TaskB (trace (pumpOf (forwardType tun) toConn w)).
Proof.
  intros Hd.
  destruct (forward_phases_of _ _ _ _ Hd) as (tail & -> & Ft & _).
  destruct (dialPhase_quiet _ _ _ _ Hd) as [Hq Hc].
  destruct (closesOf_pump _ _ (pumpOf_events (forwardType tun) toConn w) Hc)
    as [HA HB].
  rewrite !closesOf_app, !(closesOf_quiet _ _ Hq), !(closesOf_tail _ _ Ft).
  rewrite !(closesOf_quiet _ _ (quiet_notify _ _)), HA, HB.
  split; simpl; lia.
Qed.

(** X6.  No call closes a connection twice: in every run, returned, blocked
    or panicked, the accepted connection and the dialed connection are each
    closed at most once. *)
Theorem forward_closes_at_most_once tun w c :
  closesOf c (events (forward tun w)) <= 1.
Proof.
  destruct (dialPhase tun w (fromAddr w) (acceptPhase tun (fromAddr w)))
    as [tr | [toConn tr]] eqn:Hd.
  - destruct (dialPhase_failed_closes _ _ _ Hd) as [HF HT].
    unfold forward. rewrite Hd. simpl. destruct c; lia.
  - destruct (forward_closes _ _ _ _ Hd) as [HA HB].
    destruct (pumpOf_invariants (forwardType tun) toConn w) as (_ & _ & Hcl).
    destruct c; [rewrite HB; apply (Hcl TaskB) | rewrite HA; apply (Hcl TaskA)].
Qed.

Lemma dialPhase_from tun w :
  match dialPhase tun w (fromAddr w) (acceptPhase tun (fromAddr w)) with
  | inl tr | inr (_, tr) =>
      Forall (fun s => From s = fromAddr w) (notifications tr)
  end.
Proof.
  unfold dialPhase, acceptPhase, tunneledState.
  destruct (forwardType tun), (dialResult w), (tunneledConnState tun);
    simpl; repeat constructor.
Qed.

(** X8.  Every state a call hands to the observer names the same peer: its
    From field is the remote address of the accepted connection. *)
Theorem forward_notifications_name_the_peer tun w :
  Forall (fun s => From s = fromAddr w) (notifications (events (forward tun w))).
Proof.
  assert (Hf := dialPhase_from tun w).
  destruct (dialPhase tun w (fromAddr w) (acceptPhase tun (fromAddr w)))
    as [tr | [toConn tr]] eqn:Hd.
  - unfold forward. rewrite Hd. exact Hf.
  - rewrite (forward_settle _ _ _ _ Hd).
    assert (Hl := notifications_pump _ _ (pumpOf_events (forwardType tun) toConn w)).
    assert (Hpre : Forall (fun s => From s = fromAddr w)
                     (notifications (tr ++ notify tun
                        (establishedState (fromAddr w) (connStr tun (fromAddr w)))))).
    { rewrite notifications_app. apply Forall_app. split; [exact Hf|].
      unfold notify. destruct (tunneledConnState tun); repeat constructor. }
    unfold settle.
    destruct (panicked _);
      [simpl; rewrite notifications_app, Hl, app_nil_r; exact Hpre|].
    destruct (negb (waited _));
      [simpl; rewrite notifications_app, Hl, app_nil_r; exact Hpre|].
    destruct (negb (_ || _));
      [simpl; rewrite notifications_app, Hl, app_nil_r; exact Hpre|].
    simpl. rewrite notifications_app.
    apply Forall_app. split; [exact Hpre|].
    rewrite notifications_app, Hl. simpl. rewrite notifications_app.
    apply Forall_app. split.
    + unfold surfaced, notify. destruct (tunCtxDone w); [constructor|].
      destruct (groupErr _); [|constructor].
      destruct (tunneledConnState tun); repeat constructor.
    + unfold notify. destruct (tunneledConnState tun); repeat constructor.
Qed.

(** X9.  The events of a call whose dial did not fail come in three phases:
    first the coordinator alone (accepted state, dial, established state),
    then the two goroutines alone (copies, closes, cancellations, results),
    then the coordinator alone again (states only).  No state reaches the
    observer while the goroutines run, and no copy precedes the dial. *)
Theorem forward_events_in_phases tun w :
  dialResult w = None ->
  exists toConn before pump after,
    events (forward tun w) = (before ++ pump ++ after)%list
    /\ Forall quiet before
    /\ Forall (pumpEvent toConn) pump
    /\ Forall isNotification after.
Proof.
  intros Hdial.
  destruct (dialPhase_handover tun w (or_introl Hdial)) as (toConn & tr & Hd & Hq & _).
  destruct (forward_phases_of _ _ _ _ Hd) as (tail & E & Ft & _).
  exists toConn. do 3 eexists. split; [exact E|].
  split; [|split; [apply pumpOf_events|exact Ft]].
  apply Forall_app. split; [exact Hq|apply quiet_notify].
Qed.

Lemma forward_events_in_phases_witness :
  exists toConn before pump after,
    events (forward (exampleTun Local) (copyAFailsWorld overlapped))
    = (before ++ pump ++ after)%list
    /\ Forall quiet before
    /\ Forall (pumpEvent toConn) pump
    /\ Forall isNotification after.
Proof.
  exact (forward_events_in_phases (exampleTun Local) (copyAFailsWorld overlapped)
           eq_refl).
Defined.

(** A Remote call whose first copy fails, on a schedule that serves both
    goroutines. *)
Lemma forward_returns_witness :
  status (forward (exampleTun Remote) (copyAFailsWorld overlapped)) = Returned.
Proof.
  apply (forward_returns (exampleTun Remote) (copyAFailsWorld overlapped)).
  - right. reflexivity.
  - unfold moves. simpl. lia.
  - unfold moves. simpl. lia.
Defined.

(** ** What a result says about the close *)

Lemma resultsOf_snoc t tr e :
  resultsOf t (tr ++ [e])
  = (resultsOf t tr ++ match e with
                       | EvDone u r => if isTask t u then [r] else []
                       | _ => []
                       end)%list.
Proof. unfold resultsOf. rewrite flat_map_app. simpl. now rewrite app_nil_r. Qed.

#[local] Arguments copyErrorLabel : simpl never.

Ltac res_tidy :=
  intros []; simpl; rewrite ?closesBy_snoc, ?resultsOf_snoc; simpl;
  rewrite ?Nat.add_0_r, ?app_nil_r; auto.

Lemma step_resInv ft toConn w t st :
  resInv ft toConn w st -> resInv ft toConn w (step ft toConn w t st).
Proof.
  unfold resInv, resOk. destruct st as [e a b g d p tr]. simpl. intros H.
  assert (HA := H TaskA). assert (HB := H TaskB). simpl in HA, HB.
  unfold step; simpl. destruct p; [exact H|].
  destruct t; simpl.
  - destruct a; simpl in *.
    + res_tidy.
    + destruct e; [destruct (copyErrorLabel ft TaskA) eqn:L|]; res_tidy.
      intuition.
    + res_tidy. destruct HA as (-> & -> & L). eauto 10.
    + destruct toConn as [c|]; simpl; [|exact H]. res_tidy.
      destruct HA as (-> & ->). eauto 10.
    + res_tidy.
    + res_tidy. destruct HA as (HA & ->). exists r. now split.
    + exact H.
  - destruct b; simpl in *.
    + res_tidy.
    + destruct e; [destruct (copyErrorLabel ft TaskB) eqn:L|]; res_tidy.
      intuition.
    + res_tidy. destruct HB as (-> & -> & L). eauto 10.
    + res_tidy. destruct HB as (-> & ->). eauto 10.
    + res_tidy.
    + res_tidy. destruct HB as (HB & ->). exists r. now split.
    + exact H.
Qed.


Lemma step_cleanInv ft c w t st :
  copyResult w TaskA = None ->
  copyResult w TaskB = None ->
  cleanInv st -> cleanInv (step ft (Some c) w t st).
Proof.
  unfold cleanInv. destruct st as [e a b g d p tr]. simpl.
  intros CA CB [-> H].
  assert (HA := H TaskA). assert (HB := H TaskB). simpl in HA, HB.
  unfold step; simpl. destruct p; [now split|].
  destruct t; simpl.
  - destruct a; simpl in *; try contradiction;
      rewrite ?CA; (split; [reflexivity|]);
      intros []; simpl; rewrite ?closesBy_snoc; simpl;
      rewrite ?Nat.add_0_r; auto; lia.
  - destruct b; simpl in *; try contradiction;
      rewrite ?CB; (split; [reflexivity|]);
      intros []; simpl; rewrite ?closesBy_snoc; simpl;
      rewrite ?Nat.add_0_r; auto; lia.
Qed.

Section PumpResults.

Variable ft : ForwardType.
Variable w : World.

Lemma pumpOf_resInv toConn : resInv ft toConn w (pumpOf ft toConn w).
Proof.
  unfold pumpOf.
  assert (H0 : resInv ft toConn w (startPump []))
    by (intros []; simpl; now split).
  revert H0. generalize (startPump []).
  induction (schedule w) as [|t sched IH]; intros st H; [exact H|].
  rewrite run_pump_cons. apply IH, step_resInv, H.
Qed.

Lemma pumpOf_cleanInv c :
  copyResult w TaskA = None ->
  copyResult w TaskB = None ->
  cleanInv (pumpOf ft (Some c) w).
Proof.
  intros CA CB. unfold pumpOf.
  assert (H0 : cleanInv (startPump []))
    by (split; [reflexivity|intros []; reflexivity]).
  revert H0. generalize (startPump []).
  induction (schedule w) as [|t sched IH]; intros st H; [exact H|].
  rewrite run_pump_cons. apply IH, step_cleanInv; assumption.
Qed.

Lemma In_resultsOf t r l : In (EvDone t r) l -> In r (resultsOf t l).
Proof.
  unfold resultsOf. intros H. apply in_flat_map.
  exists (EvDone t r). split; [exact H|]. destruct t; simpl; now left.
Qed.

(** A result in the trace of the pump is the one result of a finished
    goroutine, and tells whether that goroutine closed. *)
Lemma pumpOf_result toConn t r :
  In (EvDone t r) (trace (pumpOf ft toConn w)) ->
  pc t (pumpOf ft toConn w) = Finished
  /\ resOk ft toConn w t r (closesBy t (trace (pumpOf ft toConn w))).
Proof.
  intros Hin. apply In_resultsOf in Hin.
  assert (H := pumpOf_resInv toConn t).
  destruct (pc t (pumpOf ft toConn w));
    try (destruct H as (_ & H); rewrite H in Hin; contradiction);
    try (destruct H as (_ & H & _); rewrite H in Hin; contradiction).
  destruct H as (r0 & E & Hok). rewrite E in Hin.
  destruct Hin as [<- | []]. now split.
Qed.

End PumpResults.

Lemma closesBy_app t l1 l2 :
  closesBy t (l1 ++ l2) = closesBy t l1 + closesBy t l2.
Proof. unfold closesBy. now rewrite filter_app, length_app. Qed.

Lemma closesBy_quiet t l : Forall quiet l -> closesBy t l = 0.
Proof.
  induction 1 as [|e l He _ IH]; [reflexivity|].
  destruct e; simpl in *; try contradiction; exact IH.
Qed.

Lemma closesBy_tail t l : Forall isNotification l -> closesBy t l = 0.
Proof.
  induction 1 as [|e l He _ IH]; [reflexivity|].
  destruct e; simpl in *; try contradiction; exact IH.
Qed.

Lemma no_result_quiet t r l : Forall quiet l -> ~ In (EvDone t r) l.
Proof.
  intros F Hin. apply (proj1 (Forall_forall _ _) F) in Hin. exact Hin.
Qed.

Lemma no_result_tail t r l : Forall isNotification l -> ~ In (EvDone t r) l.
Proof.
  intros F Hin. apply (proj1 (Forall_forall _ _) F) in Hin. exact Hin.
Qed.

Lemma dialPhase_failed_no_result tun w tr t r :
  dialPhase tun w (fromAddr w) (acceptPhase tun (fromAddr w)) = inl tr ->
  ~ In (EvDone t r) tr.
Proof.
  unfold dialPhase, acceptPhase, tunneledState.
  destruct (forwardType tun), (dialResult w), (tunneledConnState tun);
    intros H; inversion H; simpl; intuition discriminate.
Qed.

(** The results and the closes of the goroutines, seen from the call. *)
Lemma forward_pump_view tun w toConn tr t :
  dialPhase tun w (fromAddr w) (acceptPhase tun (fromAddr w)) = inr (toConn, tr) ->
  closesBy t (events (forward tun w))
  = closesBy t (trace (pumpOf (forwardType tun) toConn w))
  /\ forall r, In (EvDone t r) (events (forward tun w)) ->
               In (EvDone t r) (trace (pumpOf (forwardType tun) toConn w)).
Proof.
  intros Hd.
  destruct (forward_phases_of _ _ _ _ Hd) as (tail & -> & Ft & _).
  destruct (dialPhase_quiet _ _ _ _ Hd) as [Hq _].
  assert (Hpre : Forall quiet
            (tr ++ notify tun (establishedState (fromAddr w) (connStr tun (fromAddr w)))))
    by (apply Forall_app; split; [exact Hq|apply quiet_notify]).
  split.
  - rewrite closesBy_app, (closesBy_quiet _ _ Hpre).
    rewrite closesBy_app, (closesBy_tail _ _ Ft). lia.
  - intros r Hin. apply in_app_or in Hin.
    destruct Hin as [Hin | Hin]; [elim (no_result_quiet _ _ _ Hpre Hin)|].
    apply in_app_or in Hin.
    destruct Hin as [Hin | Hin]; [exact Hin|elim (no_result_tail _ _ _ Ft Hin)].
Qed.

(** X12.  What a goroutine reports tells whether it closed.  Under Local or
    Remote forwarding, a goroutine counted done with result r either closed
    the destination of its copy exactly once and r is what that Close
    returned, or closed nothing and r is a labelled copy error: the error
    return and the close exclude each other in every run. *)
Theorem forward_result_tells_close tun w t r :
  forwardType tun = Local \/ forwardType tun = Remote ->
  In (EvDone t r) (events (forward tun w)) ->
  (closesBy t (events (forward tun w)) = 1
   /\ exists c, copyDst (Some ToConn) t = Some c /\ r = closeResult w c)
  \/ (closesBy t (events (forward tun w)) = 0
      /\ exists label e, copyErrorLabel (forwardType tun) t = Some label
                         /\ r = Some (label ++ fmt_w e)).
Proof.
  intros Hft Hin.
  destruct (dialPhase tun w (fromAddr w) (acceptPhase tun (fromAddr w)))
    as [tr | [toConn tr]] eqn:Hd.
  - revert Hin. unfold forward. rewrite Hd. simpl. intros Hin.
    elim (dialPhase_failed_no_result _ _ _ _ _ Hd Hin).
  - assert (toConn = Some ToConn) as ->.
    { revert Hd. unfold dialPhase.
      destruct Hft as [-> | ->]; destruct (dialResult w); intros H; inversion H;
        reflexivity. }
    destruct (forward_pump_view _ _ _ _ t Hd) as [-> Hview].
    exact (proj2 (pumpOf_result _ _ _ _ _ (Hview _ Hin))).
Qed.

Lemma forward_result_tells_close_witness :
  (closesBy TaskA (events (forward (exampleTun Local) (copyAFailsWorld inTurn))) = 1
   /\ exists c, copyDst (Some ToConn) TaskA = Some c
                /\ Some "failed copying bytes from remote to local: connection reset by peer"
                   = closeResult (copyAFailsWorld inTurn) c)
  \/ (closesBy TaskA (events (forward (exampleTun Local) (copyAFailsWorld inTurn))) = 0
      /\ exists label e, copyErrorLabel Local TaskA = Some label
                         /\ Some "failed copying bytes from remote to local: connection reset by peer"
                            = Some (label ++ fmt_w e)).
Proof.
  apply (forward_result_tells_close (exampleTun Local) (copyAFailsWorld inTurn)
           TaskA
           (Some "failed copying bytes from remote to local: connection reset by peer")).
  - left. reflexivity.
  - simpl. do 5 right. left. reflexivity.
Defined.

(** X7.  When both copies end with a clean end-of-stream and the call
    returns, each of the two connections has been closed exactly once,
    whatever the schedule, and every result handed to the group is what a
    Close returned: the only error such a call can surface is a close
    error. *)
Theorem forward_clean_run_closes_both tun w :
  copyResult w TaskA = None ->
  copyResult w TaskB = None ->
  forwardType tun = Local \/ forwardType tun = Remote ->
  dialResult w = None ->
  status (forward tun w) = Returned ->
  closesOf FromConn (events (forward tun w)) = 1
  /\ closesOf ToConn (events (forward tun w)) = 1
  /\ forall t r, In (EvDone t r) (events (forward tun w)) ->
                 exists c, copyDst (Some ToConn) t = Some c /\ r = closeResult w c.
Proof.
  intros CA CB Hft Hdial Hst.
  destruct (dialPhase_dialed tun w (acceptPhase tun (fromAddr w)) Hft Hdial)
    as (d & k & a & Hd).
  destruct (forward_closes _ _ _ _ Hd) as [HA HB].
  destruct (pumpOf_cleanInv (forwardType tun) w ToConn CA CB) as [_ Hclean].
  rewrite (forward_settle _ _ _ _ Hd) in Hst. unfold settle, waited in Hst.
  destruct (panicked _); [discriminate|].
  destruct (pcA _) eqn:EA; try discriminate Hst.
  destruct (pcB _) eqn:EB; try discriminate Hst.
  assert (CA1 := Hclean TaskA). assert (CB1 := Hclean TaskB).
  simpl in CA1, CB1. rewrite EA in CA1. rewrite EB in CB1.
  split; [now rewrite HB|]. split; [now rewrite HA|].
  intros t r Hin.
  destruct (forward_pump_view _ _ _ _ t Hd) as [_ Hview].
  destruct (pumpOf_result _ _ _ _ _ (Hview _ Hin)) as [_ [[_ H] | [H0 _]]];
    [exact H|].
  destruct t; [rewrite CA1 in H0 | rewrite CB1 in H0]; discriminate.
Qed.

Lemma forward_clean_run_closes_both_witness :
  closesOf FromConn (events (forward (exampleTun Local) cleanWorld)) = 1
  /\ closesOf ToConn (events (forward (exampleTun Local) cleanWorld)) = 1
  /\ forall t r, In (EvDone t r) (events (forward (exampleTun Local) cleanWorld)) ->
                 exists c, copyDst (Some ToConn) t = Some c
                           /\ r = closeResult cleanWorld c.
Proof.
  exact (forward_clean_run_closes_both (exampleTun Local) cleanWorld
           eq_refl eq_refl (or_introl eq_refl) eq_refl eq_refl).
Defined.

(** ** Goroutines that do not overlap *)

Lemma step_ext ft toConn w w' t st :
  (forall u, copyResult w u = copyResult w' u) ->
  (forall c, closeResult w c = closeResult w' c) ->
  step ft toConn w t st = step ft toConn w' t st.
Proof.
  intros H1 H2. unfold step.
  destruct (panicked st); [reflexivity|].
  destruct (pc t st); try reflexivity.
  - now rewrite H1.
  - destruct (copyDst toConn t); [now rewrite H2|reflexivity].
Qed.

Lemma run_pump_ext ft toConn w w' sched :
  (forall u, copyResult w u = copyResult w' u) ->
  (forall c, closeResult w c = closeResult w' c) ->
  forall st, run_pump ft toConn w sched st = run_pump ft toConn w' sched st.
Proof.
  intros H1 H2. induction sched as [|t sched IH]; intros st; [reflexivity|].
  rewrite !run_pump_cons, (step_ext ft toConn w w' t st H1 H2). apply IH.
Qed.

Lemma run_pump_app ft toConn w s1 s2 st :
  run_pump ft toConn w (s1 ++ s2) st
  = run_pump ft toConn w s2 (run_pump ft toConn w s1 st).
Proof. apply fold_left_app. Qed.

Lemma run_pump_finished ft toConn w t n : forall st,
  pc t st = Finished -> run_pump ft toConn w (repeat t n) st = st.
Proof.
  induction n as [|n IH]; intros st H; [reflexivity|].
  simpl repeat. rewrite run_pump_cons.
  assert (E : step ft toConn w t st = st)
    by (unfold step; rewrite H; now destruct (panicked st)).
  rewrite E. now apply IH.
Qed.

(** Five moves in a row take a goroutine from its copy to its end, and what
    it reports is what its closure returns alone. *)
Lemma run_alone ft a b ct cf t st :
  ft = Local \/ ft = Remote ->
  panicked st = false ->
  pc t st = AtCopy ->
  panicked (run_pump ft (Some ToConn) (tableWorld a b ct cf) (repeat t 5) st) = false
  /\ pc t (run_pump ft (Some ToConn) (tableWorld a b ct cf) (repeat t 5) st) = Finished
  /\ pc (otherTask t)
       (run_pump ft (Some ToConn) (tableWorld a b ct cf) (repeat t 5) st)
     = pc (otherTask t) st
  /\ In (EvDone t (closureAlone ft (tableWorld a b ct cf) t))
       (trace (run_pump ft (Some ToConn) (tableWorld a b ct cf) (repeat t 5) st)).
Proof.
  destruct st as [e pa pb g d p tr]. simpl panicked. simpl pc at 1.
  intros Hft -> Hpc.
  destruct t; simpl in Hpc; subst;
    destruct Hft as [-> | ->]; [destruct a | destruct a | destruct b | destruct b];
    cbv -[app In String.append];
    (repeat split; apply in_or_app; right; left; reflexivity).
Qed.

Lemma closureAlone_table ft w u :
  closureAlone ft
    (tableWorld (copyResult w TaskA) (copyResult w TaskB)
       (closeResult w ToConn) (closeResult w FromConn)) u
  = closureAlone ft w u.
Proof. destruct u; reflexivity. Qed.

Lemma pumpOf_table ft toConn w :
  pumpOf ft toConn w
  = run_pump ft toConn
      (tableWorld (copyResult w TaskA) (copyResult w TaskB)
         (closeResult w ToConn) (closeResult w FromConn))
      (schedule w) (startPump []).
Proof.
  unfold pumpOf. apply run_pump_ext; intros []; reflexivity.
Qed.

Lemma both_tasks (P : Task -> Prop) t :
  P t -> P (otherTask t) -> P TaskA /\ P TaskB.
Proof. destruct t; simpl; auto. Qed.

Lemma otherTask_involutive t : otherTask (otherTask t) = t.
Proof. now destruct t. Qed.

Lemma settle_returned tun w p pre :
  panicked p = false -> pcA p = Finished -> pcB p = Finished ->
  connCtxDone p = true ->
  status (settle tun w p pre) = Returned.
Proof.
  intros H1 H2 H3 H4. unfold settle, waited. now rewrite H1, H2, H3, H4.
Qed.

(** A goroutine that is given at least five moves in a row reaches its end,
    leaves the other where it was, and reports what its closure returns
    alone. *)
Lemma run_alone_on ft a b ct cf t n st :
  ft = Local \/ ft = Remote ->
  panicked st = false ->
  pc t st = AtCopy ->
  exists p l,
    run_pump ft (Some ToConn) (tableWorld a b ct cf) (repeat t (5 + n)) st = p
    /\ trace p = (trace st ++ l)%list
    /\ panicked p = false
    /\ pc t p = Finished
    /\ pc (otherTask t) p = pc (otherTask t) st
    /\ In (EvDone t (closureAlone ft (tableWorld a b ct cf) t)) (trace p).
Proof.
  intros Hft Hp Hpc.
  destruct (run_pump_trace ft (Some ToConn) (tableWorld a b ct cf) (repeat t 5) st)
    as (l & Hl & _).
  destruct (run_alone ft a b ct cf t st Hft Hp Hpc) as (P1 & F1 & O1 & D1).
  exists (run_pump ft (Some ToConn) (tableWorld a b ct cf) (repeat t 5) st), l.
  split; [|auto].
  rewrite (repeat_app t 5 n), run_pump_app.
  now apply run_pump_finished.
Qed.

(** One goroutine runs to its end, then the other. *)
Lemma pump_in_turn ft a b ct cf t n m :
  ft = Local \/ ft = Remote ->
  exists p,
    run_pump ft (Some ToConn) (tableWorld a b ct cf)
      (repeat t (5 + n) ++ repeat (otherTask t) (5 + m)) (startPump []) = p
    /\ panicked p = false
    /\ (pc TaskA p = Finished /\ pc TaskB p = Finished)
    /\ (In (EvDone TaskA (closureAlone ft (tableWorld a b ct cf) TaskA)) (trace p)
        /\ In (EvDone TaskB (closureAlone ft (tableWorld a b ct cf) TaskB)) (trace p)).
Proof.
  intros Hft.
  assert (C0 : pc t (startPump []) = AtCopy) by (destruct t; reflexivity).
  destruct (run_alone_on ft a b ct cf t n (startPump []) Hft eq_refl C0)
    as (p1 & l1 & E1 & T1 & P1 & F1 & O1 & D1).
  assert (C1 : pc (otherTask t) p1 = AtCopy)
    by (rewrite O1; destruct t; reflexivity).
  destruct (run_alone_on ft a b ct cf (otherTask t) m p1 Hft P1 C1)
    as (p2 & l2 & E2 & T2 & P2 & F2 & O2 & D2).
  exists p2. rewrite run_pump_app, E1, E2.
  rewrite otherTask_involutive in O2.
  assert (F2' : pc t p2 = Finished) by (rewrite O2; exact F1).
  assert (D1' : In (EvDone t (closureAlone ft (tableWorld a b ct cf) t)) (trace p2))
    by (rewrite T2; apply in_or_app; now left).
  split; [reflexivity|]. split; [exact P2|]. split.
  - exact (both_tasks (fun u => pc u p2 = Finished) t F2' F2).
  - exact (both_tasks
             (fun u => In (EvDone u (closureAlone ft (tableWorld a b ct cf) u))
                          (trace p2)) t D1' D2).
Qed.

(** X11.  When one goroutine makes all its moves before the other makes its
    first, nothing leaks through the shared variable: the call returns and
    each goroutine reports what its closure returns alone, the error of its
    own copy under its own label or the result of its own Close. *)
Theorem forward_in_turn_reports_own tun w t n m :
  forwardType tun = Local \/ forwardType tun = Remote ->
  dialResult w = None ->
  schedule w = (repeat t (5 + n) ++ repeat (otherTask t) (5 + m))%list ->
  status (forward tun w) = Returned
  /\ In (EvDone TaskA (closureAlone (forwardType tun) w TaskA))
        (events (forward tun w))
  /\ In (EvDone TaskB (closureAlone (forwardType tun) w TaskB))
        (events (forward tun w)).
Proof.
  intros Hft Hdial Hs.
  destruct (dialPhase_dialed tun w (acceptPhase tun (fromAddr w)) Hft Hdial)
    as (d & k & a & Hd).
  destruct (forward_phases_of _ _ _ _ Hd) as (tail & Hev & _).
  rewrite Hev, (forward_settle _ _ _ _ Hd).
  destruct (pumpOf_invariants (forwardType tun) (Some ToConn) w) as (Hc & _ & _).
  destruct (pump_in_turn (forwardType tun) (copyResult w TaskA) (copyResult w TaskB)
              (closeResult w ToConn) (closeResult w FromConn) t n m Hft)
    as (p & Hp & P & [FA FB] & [DA DB]).
  rewrite closureAlone_table in DA. rewrite closureAlone_table in DB.
  revert Hc. rewrite pumpOf_table, Hs, Hp. intros Hc.
  split.
  - apply settle_returned; auto.
    apply (Hc TaskA). rewrite FA. simpl. lia.
  - split; apply in_or_app; right; apply in_or_app; left; assumption.
Qed.

Lemma forward_in_turn_reports_own_witness :
  status (forward (exampleTun Local) copyBFailsWorld) = Returned
  /\ In (EvDone TaskA (closureAlone Local copyBFailsWorld TaskA))
        (events (forward (exampleTun Local) copyBFailsWorld))
  /\ In (EvDone TaskB (closureAlone Local copyBFailsWorld TaskB))
        (events (forward (exampleTun Local) copyBFailsWorld)).
Proof.
  exact (forward_in_turn_reports_own (exampleTun Local) copyBFailsWorld TaskA 0 0
           (or_introl eq_refl) eq_refl eq_refl).
Defined.

(** ** What the observer can print *)

Lemma append_empty (a : string) : a ++ "" = a.
Proof. induction a as [|c a IH]; simpl; [reflexivity|now rewrite IH]. Qed.

Lemma append_chain (a b c : string) : (a ++ b) ++ c = a ++ b ++ c.
Proof. induction a as [|x a IH]; simpl; [reflexivity|now rewrite IH]. Qed.

(** X13.  The test on Info in the method String changes nothing, and neither
    Ready nor Closed is printed: the string is the address in brackets and a
    space, then Info, then the error after the word Error and a colon when
    there is one, with nothing between Info and that word. *)
Theorem String_closed_form s :
  TunneledConnState_String s
  = "[" ++ From s ++ "] " ++ Info s
    ++ match Error s with Some e => "Error: " ++ e | None => "" end.
Proof.
  unfold TunneledConnState_String.
  destruct (String.eqb (Info s) "") eqn:Hi.
  - apply String.eqb_eq in Hi. rewrite Hi.
    destruct (Error s); simpl; rewrite ?append_chain, ?append_empty; reflexivity.
  - destruct (Error s); simpl; rewrite ?append_chain, ?append_empty; simpl;
      rewrite ?append_chain; reflexivity.
Qed.

Lemma forward_states tun w (P : TunneledConnState -> Prop) :
  (forall kind, P (acceptedState (fromAddr w) kind)) ->
  (forall e, P (dialFailedState (fromAddr w) e)) ->
  (forall d, P (establishedState (fromAddr w) d)) ->
  (forall e, P (closedWithErrorState (fromAddr w) e)) ->
  (forall d, P (closedFinalState (fromAddr w) d)) ->
  Forall P (notifications (events (forward tun w))).
Proof.
  intros Ha Hf He Hc Hl.
  assert (Hf0 : match dialPhase tun w (fromAddr w) (acceptPhase tun (fromAddr w)) with
                | inl tr | inr (_, tr) => Forall P (notifications tr)
                end).
  { unfold dialPhase, acceptPhase, tunneledState.
    destruct (forwardType tun), (dialResult w), (tunneledConnState tun);
      simpl; repeat (constructor; auto). }
  destruct (dialPhase tun w (fromAddr w) (acceptPhase tun (fromAddr w)))
    as [tr | [toConn tr]] eqn:Hd.
  - unfold forward. rewrite Hd. exact Hf0.
  - rewrite (forward_settle _ _ _ _ Hd).
    assert (Hp := notifications_pump _ _ (pumpOf_events (forwardType tun) toConn w)).
    unfold settle.
    assert (Hpre : Forall P
                     (notifications (tr ++ notify tun
                        (establishedState (fromAddr w) (connStr tun (fromAddr w)))))).
    { rewrite notifications_app. apply Forall_app. split; [exact Hf0|].
      unfold notify. destruct (tunneledConnState tun); repeat (constructor; auto). }
    destruct (panicked _);
      [simpl; rewrite notifications_app, Hp, app_nil_r; exact Hpre|].
    destruct (negb (waited _));
      [simpl; rewrite notifications_app, Hp, app_nil_r; exact Hpre|].
    destruct (negb (_ || _));
      [simpl; rewrite notifications_app, Hp, app_nil_r; exact Hpre|].
    simpl. rewrite notifications_app.
    apply Forall_app. split; [exact Hpre|].
    rewrite notifications_app, Hp. simpl. rewrite notifications_app.
    apply Forall_app. split.
    + unfold surfaced, notify. destruct (tunCtxDone w); [constructor|].
      destruct (groupErr _); [|constructor].
      destruct (tunneledConnState tun); repeat (constructor; auto).
    + unfold notify. destruct (tunneledConnState tun); repeat (constructor; auto).
Qed.

(** X14.  No state a call hands to the observer carries both a message and
    an error, so the method String never has to join the two: each state
    prints as the address of the peer in brackets followed either by its
    message, which is not empty, or by the word Error, a colon and the
    error. *)
Theorem forward_states_print_one_part tun w :
  Forall (onePart (fromAddr w)) (notifications (events (forward tun w))).
Proof.
  apply forward_states; intros x; unfold onePart; simpl.
  - left. repeat split. discriminate.
  - right. exists x. now split.
  - left. repeat split. discriminate.
  - right. exists x. now split.
  - left. repeat split. discriminate.
Qed.
